(** * RoomHub: a shallow embedding of the data-access and request layers

    The development follows the two source files.

    - [data.py]: the connection pool discipline ([get_db_connection],
      [get_db_cursor]) and one function per SQL statement pattern.
    - [server.py]: the request handlers that compose them ([user_home],
      [join_house], [leave_house_route]), [day_rounder] and the pool
      [setup].

    Python text is a sequence of Unicode code points, tables are lists of
    rows in insertion order, and the effects of the data layer (pool state,
    committed store, driver failures) are threaded through a state and
    exception monad.  The store is the one the specification describes: five
    tables, their sequences and their foreign keys.  Part I holds the
    embedding, Part II the proofs. *)

From Equations Require Import Equations.
From stdpp Require Import base numbers list strings countable gmap.

Set Default Proof Using "Type".

(** * Part I: the embedding *)

(** ** Python text *)

Module Py.

(** A [str] is a sequence of code points. *)
Definition str := list N.

(** Literals of the source are written as Rocq strings. *)
Definition lit (s : string) : str :=
  Ascii.N_of_ascii <$> String.list_ascii_of_string s.

Definition space : N := 32%N.

(** The characters [str.strip()] removes and [str.isspace()] accepts:
    CPython's whitespace table (U+0009..U+000D, U+001C..U+0020, U+0085,
    U+00A0, U+1680, U+2000..U+200A, U+2028, U+2029, U+202F, U+205F,
    U+3000). *)
Definition isspace_char (c : N) : bool :=
  ((9 <=? c) && (c <=? 13) || (28 <=? c) && (c <=? 32)
   || (c =? 133) || (c =? 160) || (c =? 5760)
   || (8192 <=? c) && (c <=? 8202)
   || (c =? 8232) || (c =? 8233) || (c =? 8239) || (c =? 8287)
   || (c =? 12288))%N.

Fixpoint lstrip (s : str) : str :=
  match s with
  | c :: r => if isspace_char c then lstrip r else s
  | [] => []
  end.

Definition rstrip (s : str) : str := reverse (lstrip (reverse s)).

(** [s.strip()] *)
Definition strip (s : str) : str := rstrip (lstrip s).

(** [s.isspace()]: at least one character, all of them whitespace. *)
Definition isspace (s : str) : bool :=
  bool_decide (s ≠ []) && forallb isspace_char s.

End Py.

Import Py.

(** ** House-name formatting ([create_house], data.py 81-91) *)

Definition inspect {A} (x : A) : { y : A | x = y } := exist _ x eq_refl.

(** The inner loop
    [while i+1 < len(stripped_name) and stripped_name[i+1] == " ": i += 1];
    the result is the final value of [i]. *)
Equations? skip_spaces (stripped_name : str) (i : nat) : nat
  by wf (length stripped_name - i) lt :=
  skip_spaces s i
    with inspect (bool_decide (i + 1 < length s)
                  && bool_decide (s !! (i + 1) = Some space)) := {
    | exist _ true H => skip_spaces s (i + 1)
    | exist _ false H => i }.
Proof.
  apply andb_prop in H as [H1 _]. apply bool_decide_eq_true in H1. lia.
Qed.

(** The outer loop [while i < len(stripped_name)], with the accumulator
    [formatted_name] passed along. *)
Equations? format_loop (stripped_name : str) (i : nat) (formatted_name : str)
  : str by wf (length stripped_name - i) lt :=
  format_loop s i out with inspect (s !! i) := {
    | exist _ (Some c) H with bool_decide (c = space) := {
      | true => format_loop s (skip_spaces s i + 1) (out ++ [space])
      | false => format_loop s (i + 1) (out ++ [c]) }
    | exist _ None H => out }.
Proof.
  all: apply lookup_lt_Some in H.
  all: assert (∀ s' j, j ≤ skip_spaces s' j) as Hge
    by (clear; intros s' j; funelim (skip_spaces s' j); lia).
  all: specialize (Hge s i); lia.
Qed.

(** The name [create_house] stores for a submitted [house_name]. *)
Definition formatted_name (house_name : str) : str :=
  let stripped_name := strip house_name in
  format_loop stripped_name 0 [].

(** *** The transform as the specification words it

    Trim leading and trailing whitespace, then replace every run of space
    characters by one space, keeping every other character. *)

Fixpoint collapse_runs_from (in_run : bool) (s : str) : str :=
  match s with
  | [] => []
  | c :: r =>
      if bool_decide (c = space)
      then (if in_run then collapse_runs_from true r
            else space :: collapse_runs_from true r)
      else c :: collapse_runs_from false r
  end.

Definition collapse_runs (s : str) : str := collapse_runs_from false s.

Definition normalize (s : str) : str := collapse_runs (strip s).

(** No two neighbouring positions both hold a space. *)
Definition no_double_space (s : str) : Prop :=
  ∀ i, s !! i = Some space → s !! S i ≠ Some space.

(** Neither end is a whitespace character (in particular, not a space). *)
Definition trimmed (s : str) : Prop :=
  (∀ c, head s = Some c → isspace_char c = false)
  ∧ (∀ c, last s = Some c → isspace_char c = false).

Definition non_spaces (s : str) : str := filter (λ c, c ≠ space) s.

(** [squeezes s t]: [t] is [s] with every maximal run of spaces replaced by
    one space and every other character left in place. *)
Inductive squeezes : str → str → Prop :=
| squeezes_nil : squeezes [] []
| squeezes_char c s t :
    c ≠ space → squeezes s t → squeezes (c :: s) (c :: t)
| squeezes_run n s t :
    head s ≠ Some space → squeezes s t →
    squeezes (replicate (S n) space ++ s) (space :: t).

(** ** Timestamps ([datetime], [timedelta]) *)

(** A naive [datetime].  The calendar date is carried as its proleptic
    Gregorian ordinal ([date.toordinal()], day 1 being 0001-01-01): this is
    the representation [datetime.__add__] itself computes with, and
    [replace(hour=.., minute=.., second=.., microsecond=..)] leaves it
    untouched. *)
Record datetime := {
  ordinal : Z;
  hour : Z;
  minute : Z;
  second : Z;
  microsecond : Z }.

Global Instance datetime_eq_dec : EqDecision datetime.
Proof. solve_decision. Defined.

(** [date.max.toordinal()], the ordinal of 9999-12-31. *)
Definition MAXORDINAL : Z := 3652059.

Definition valid_datetime (t : datetime) : Prop :=
  (1 ≤ ordinal t ≤ MAXORDINAL ∧ 0 ≤ hour t < 24 ∧ 0 ≤ minute t < 60
   ∧ 0 ≤ second t < 60 ∧ 0 ≤ microsecond t < 1000000)%Z.

Definition US_PER_DAY : Z := 86400000000.

(** Position of [t] on the time line, in microseconds. *)
Definition to_us (t : datetime) : Z :=
  ordinal t * US_PER_DAY
  + ((hour t * 60 + minute t) * 60 + second t) * 1000000 + microsecond t.

(** A [timedelta] is normalised by Python to a single duration; it is kept
    as its length in microseconds. *)
Definition timedelta := Z.

(** [timedelta(days=d)] *)
Definition timedelta_days (d : Z) : timedelta := (d * US_PER_DAY)%Z.

(** ** Outcomes of Python code *)

Inductive exn :=
| PoolError            (* psycopg2.pool.PoolError: the pool is exhausted *)
| UnboundLocalError    (* a local variable read before assignment *)
| OperationalError     (* psycopg2: the server or the link failed *)
| TypeError            (* subscripting None *)
| IndexError           (* tuple index out of range *)
| KeyError             (* missing mapping key *)
| AttributeError       (* method call on None *)
| OverflowError        (* date value out of range *)
| UnicodeEncodeError   (* a str parameter that UTF-8 cannot encode *)
| ValueError           (* psycopg2: a str parameter holding a NUL character *)
| IntegrityError.      (* psycopg2: the server refuses a statement that
                          would break a foreign key *)

Inductive result (A : Type) :=
| Ok (a : A)
| Raise (e : exn).
Arguments Ok {A} a.
Arguments Raise {A} e.

Global Instance result_ret : MRet result := λ A a, Ok a.

Global Instance result_bind : MBind result := λ A B f r,
  match r with
  | Ok a => f a
  | Raise e => Raise e
  end.

(** [t + delta] on datetimes, as [datetime.__add__] computes it: the sum is
    split into days and time of day and rejected when the day leaves
    [1 .. MAXORDINAL]. *)
Definition datetime_add (t : datetime) (delta : timedelta) : result datetime :=
  let total := (to_us t + delta)%Z in
  let days := (total / US_PER_DAY)%Z in
  let rest := (total mod US_PER_DAY)%Z in
  if bool_decide (0 < days ≤ MAXORDINAL)%Z
  then Ok {| ordinal := days;
             hour := rest / 3600000000;
             minute := rest / 60000000 mod 60;
             second := rest / 1000000 mod 60;
             microsecond := rest mod 1000000 |}
  else Raise OverflowError.

(** [t.replace(hour=0, minute=0, second=0, microsecond=0)] *)
Definition replace_midnight (t : datetime) : datetime :=
  {| ordinal := ordinal t; hour := 0; minute := 0; second := 0;
     microsecond := 0 |}.

(** [day_rounder] (server.py 212-217) *)
Definition day_rounder (t : datetime) : result datetime :=
  if bool_decide (hour t < 12)%Z
     || (bool_decide (hour t = 12%Z) && bool_decide (minute t = 0%Z)
         && bool_decide (second t = 0%Z) && bool_decide (microsecond t = 0%Z))
  then Ok (replace_midnight t)
  else
    let rounded_up := datetime_add (replace_midnight t) (timedelta_days 1) in
    rounded_up.

(** ** State and exception monad *)

Definition SE (S A : Type) : Type := S → result A * S.

Global Instance SE_ret {S} : MRet (SE S) := λ A a s, (Ok a, s).

Global Instance SE_bind {S} : MBind (SE S) := λ A B f m s,
  match m s with
  | (Ok a, s') => f a s'
  | (Raise e, s') => (Raise e, s')
  end.

Definition raise {S A} (e : exn) : SE S A := λ s, (Raise e, s).

Definition lift_result {S A} (r : result A) : SE S A := λ s, (r, s).

(** [try: body finally: cleanup].  The cleanup always runs; when it raises,
    its exception replaces the outcome of the body. *)
Definition try_finally {S A} (body : SE S A) (cleanup : SE S unit) : SE S A :=
  λ s,
    let '(r, s1) := body s in
    match cleanup s1 with
    | (Ok _, s2) => (r, s2)
    | (Raise e, s2) => (Raise e, s2)
    end.

(** [[f(x) for x in xs]] *)
Fixpoint comprehension {A B} (f : A → result B) (xs : list A)
  : result (list B) :=
  match xs with
  | [] => Ok []
  | x :: r =>
      match f x with
      | Raise e => Raise e
      | Ok y =>
          match comprehension f r with
          | Raise e => Raise e
          | Ok ys => Ok (y :: ys)
          end
      end
  end.

(** ** The relational store *)

(** A value in a result row, as the driver hands it to Python
    ([VNull] is [None]). *)
Inductive val :=
| VNull
| VInt (z : Z)
| VStr (s : str)
| VTime (t : datetime).

Global Instance val_eq_dec : EqDecision val.
Proof. solve_decision. Defined.

Global Instance val_countable : Countable val.
Proof.
  refine (inj_countable'
    (λ v, match v with
          | VNull => inl ()
          | VInt z => inr (inl z)
          | VStr s => inr (inr (inl s))
          | VTime t => inr (inr (inr
              (ordinal t, hour t, minute t, second t, microsecond t)))
          end)
    (λ x, match x with
          | inl () => VNull
          | inr (inl z) => VInt z
          | inr (inr (inl s)) => VStr s
          | inr (inr (inr (o, h, m, s, u))) =>
              VTime {| ordinal := o; hour := h; minute := m; second := s;
                       microsecond := u |}
          end) _).
  intros [| | |[]]; reflexivity.
Defined.

(** A result row ([DictRow]), read by position. *)
Definition row := list val.

(** Modelled from the spec: the persisted schema.  The sources hold no table
    definition; the five tables and their columns, in this order, are the
    ones of the specification's interface section ([users(id, username,
    email)], [houses(house_id, house_name)], [user_houses(user_id,
    house_id)], [tasks(task_id, task_name, user_id, house_id,
    added_timestamp, due_date)], [restrictions(house_id, user_id,
    diet_restrictions, schedule_restrictions)]).  The surrogate keys the
    code never supplies ([users.id], [houses.house_id], [tasks.task_id]) are
    drawn from a sequence per table; a sequence is not transactional, so a
    value drawn in a transaction that is rolled back is not handed out
    again.  The specification gives the store foreign keys (its sections 4.1
    and 7): the [user_id] and [house_id] of a membership, a task and a
    restriction name a row of [users] and of [houses]; the statements below
    that would break one are refused.  No uniqueness constraint is modelled:
    the code leaves the uniqueness of house names to the guard of
    [user_home], and the theorems that need a name to identify its house
    say so. *)
Record user_row := {
  u_id : Z;
  u_username : str;
  u_email : str }.

Record house_row := {
  h_house_id : Z;
  h_house_name : str }.

Record membership_row := {
  m_user_id : Z;
  m_house_id : Z }.

Record task_row := {
  t_task_id : Z;
  t_task_name : str;
  t_user_id : Z;
  t_house_id : Z;
  t_added_timestamp : datetime;
  t_due_date : datetime }.

Record restriction_row := {
  r_house_id : Z;
  r_user_id : Z;
  r_diet_restrictions : str;
  r_schedule_restrictions : str }.

Global Instance user_row_eq_dec : EqDecision user_row.
Proof. solve_decision. Defined.
Global Instance house_row_eq_dec : EqDecision house_row.
Proof. solve_decision. Defined.
Global Instance membership_row_eq_dec : EqDecision membership_row.
Proof. solve_decision. Defined.
Global Instance task_row_eq_dec : EqDecision task_row.
Proof. solve_decision. Defined.
Global Instance restriction_row_eq_dec : EqDecision restriction_row.
Proof. solve_decision. Defined.

Record DB := {
  users : list user_row;
  houses : list house_row;
  user_houses : list membership_row;
  tasks : list task_row;
  restrictions : list restriction_row;
  users_id_seq : Z;
  houses_house_id_seq : Z;
  tasks_task_id_seq : Z }.

Global Instance DB_eq_dec : EqDecision DB.
Proof. solve_decision. Defined.

Definition set_users (f : list user_row → list user_row) (d : DB) : DB :=
  {| users := f (users d); houses := houses d;
     user_houses := user_houses d; tasks := tasks d;
     restrictions := restrictions d; users_id_seq := users_id_seq d;
     houses_house_id_seq := houses_house_id_seq d;
     tasks_task_id_seq := tasks_task_id_seq d |}.

Definition set_houses (f : list house_row → list house_row) (d : DB) : DB :=
  {| users := users d; houses := f (houses d);
     user_houses := user_houses d; tasks := tasks d;
     restrictions := restrictions d; users_id_seq := users_id_seq d;
     houses_house_id_seq := houses_house_id_seq d;
     tasks_task_id_seq := tasks_task_id_seq d |}.

Definition set_user_houses
  (f : list membership_row → list membership_row) (d : DB) : DB :=
  {| users := users d; houses := houses d;
     user_houses := f (user_houses d); tasks := tasks d;
     restrictions := restrictions d; users_id_seq := users_id_seq d;
     houses_house_id_seq := houses_house_id_seq d;
     tasks_task_id_seq := tasks_task_id_seq d |}.

Definition set_tasks (f : list task_row → list task_row) (d : DB) : DB :=
  {| users := users d; houses := houses d;
     user_houses := user_houses d; tasks := f (tasks d);
     restrictions := restrictions d; users_id_seq := users_id_seq d;
     houses_house_id_seq := houses_house_id_seq d;
     tasks_task_id_seq := tasks_task_id_seq d |}.

Definition set_restrictions
  (f : list restriction_row → list restriction_row) (d : DB) : DB :=
  {| users := users d; houses := houses d;
     user_houses := user_houses d; tasks := tasks d;
     restrictions := f (restrictions d); users_id_seq := users_id_seq d;
     houses_house_id_seq := houses_house_id_seq d;
     tasks_task_id_seq := tasks_task_id_seq d |}.

Definition bump_users_id_seq (d : DB) : DB :=
  {| users := users d; houses := houses d;
     user_houses := user_houses d; tasks := tasks d;
     restrictions := restrictions d; users_id_seq := users_id_seq d + 1;
     houses_house_id_seq := houses_house_id_seq d;
     tasks_task_id_seq := tasks_task_id_seq d |}.

Definition bump_houses_house_id_seq (d : DB) : DB :=
  {| users := users d; houses := houses d;
     user_houses := user_houses d; tasks := tasks d;
     restrictions := restrictions d; users_id_seq := users_id_seq d;
     houses_house_id_seq := houses_house_id_seq d + 1;
     tasks_task_id_seq := tasks_task_id_seq d |}.

Definition bump_tasks_task_id_seq (d : DB) : DB :=
  {| users := users d; houses := houses d;
     user_houses := user_houses d; tasks := tasks d;
     restrictions := restrictions d; users_id_seq := users_id_seq d;
     houses_house_id_seq := houses_house_id_seq d;
     tasks_task_id_seq := tasks_task_id_seq d + 1 |}.

(** The tables of [d] with the sequences as [seqs] has them: what a
    rollback to [d] leaves after the sequences have moved on to [seqs]. *)
Definition with_sequences_of (seqs d : DB) : DB :=
  {| users := users d; houses := houses d;
     user_houses := user_houses d; tasks := tasks d;
     restrictions := restrictions d; users_id_seq := users_id_seq seqs;
     houses_house_id_seq := houses_house_id_seq seqs;
     tasks_task_id_seq := tasks_task_id_seq seqs |}.
Arguments with_sequences_of : simpl never.

(** The rows [SELECT *] returns, column by column. *)
Definition house_cols (h : house_row) : row :=
  [VInt (h_house_id h); VStr (h_house_name h)].

Definition task_cols (t : task_row) : row :=
  [VInt (t_task_id t); VStr (t_task_name t); VInt (t_user_id t);
   VInt (t_house_id t); VTime (t_added_timestamp t); VTime (t_due_date t)].

Definition restriction_cols (r : restriction_row) : row :=
  [VInt (r_house_id r); VInt (r_user_id r); VStr (r_diet_restrictions r);
   VStr (r_schedule_restrictions r)].

(** ** SQL statements

    A statement maps the store to the rows it returns and the new store;
    when the server refuses it, the store it leaves is the one it found,
    but for the sequence values drawn on the way.  Rows come out in table
    order (a row written by [INSERT] or [UPDATE] is the last of its table),
    joins in the nested order of their [FROM] clause; SQL itself promises no
    order. *)

Definition statement := DB → result (list row) * DB.

Definition query (q : DB → list row) : statement := λ d, (Ok (q d), d).
Definition command (f : DB → DB) : statement := λ d, (Ok [], f d).

(** Modelled from the spec: the foreign keys.  [has_user] and [has_house]
    are the rows a foreign key can point to; a house is [unreferenced] when
    no membership, task or restriction points to it. *)
Definition has_user (user_id : Z) (d : DB) : Prop :=
  user_id ∈ u_id <$> users d.

Definition has_house (house_id : Z) (d : DB) : Prop :=
  house_id ∈ h_house_id <$> houses d.

Definition unreferenced (house_id : Z) (d : DB) : Prop :=
  Forall (λ m, m_house_id m ≠ house_id) (user_houses d)
  ∧ Forall (λ t, t_house_id t ≠ house_id) (tasks d)
  ∧ Forall (λ r, r_house_id r ≠ house_id) (restrictions d).

Global Instance has_user_dec user_id d : Decision (has_user user_id d).
Proof. unfold has_user. apply _. Defined.
Global Instance has_house_dec house_id d : Decision (has_house house_id d).
Proof. unfold has_house. apply _. Defined.
Global Instance unreferenced_dec house_id d :
  Decision (unreferenced house_id d).
Proof. unfold unreferenced. apply _. Defined.

(** A statement the server runs only on a store where it breaks no
    constraint. *)
Definition constrained (allowed : DB → Prop) `{∀ d, Decision (allowed d)}
  (st : statement) : statement :=
  λ d, if decide (allowed d) then st d else (Raise IntegrityError, d).

(** [l JOIN r ON l.ka = r.kb] *)
Definition inner_join {A B K} `{EqDecision K} (ka : A → K) (kb : B → K)
  (l : list A) (r : list B) : list (A * B) :=
  a ← l; b ← filter (λ b, ka a = kb b) r; [(a, b)].

(** [l LEFT JOIN r ON l.ka = r.kb]: a row of [l] without partner is kept
    once, padded with NULLs. *)
Definition left_join {A B K} `{EqDecision K} (ka : A → K) (kb : B → K)
  (l : list A) (r : list B) : list (A * option B) :=
  a ← l;
  match filter (λ b, ka a = kb b) r with
  | [] => [(a, None)]
  | bs => (λ b, (a, Some b)) <$> bs
  end.

(** [INSERT INTO users (username, email) values (%s, %s)] *)
Definition sql_insert_user (username email : str) : statement :=
  command (λ d,
    bump_users_id_seq
      (set_users (λ us, us ++ [{| u_id := users_id_seq d;
                                  u_username := username;
                                  u_email := email |}]) d)).

(** [SELECT username FROM users WHERE email = %s] *)
Definition sql_select_username_by_email (email : str) : statement :=
  query (λ d,
    (λ u, [VStr (u_username u)]) <$> filter (λ u, u_email u = email) (users d)).

(** [INSERT INTO houses (house_name) VALUES (%s) RETURNING house_id] *)
Definition sql_insert_house (house_name : str) : statement := λ d,
  let house_id := houses_house_id_seq d in
  (Ok [[VInt house_id]],
   bump_houses_house_id_seq
     (set_houses (λ hs, hs ++ [{| h_house_id := house_id;
                                  h_house_name := house_name |}]) d)).

(** [INSERT INTO user_houses (user_id, house_id) VALUES (%s, %s)] *)
Definition sql_insert_user_house (user_id house_id : Z) : statement :=
  constrained (λ d, has_user user_id d ∧ has_house house_id d)
    (command (set_user_houses
       (λ ms, ms ++ [{| m_user_id := user_id; m_house_id := house_id |}]))).

(** [SELECT * FROM houses WHERE house_name = %s] *)
Definition sql_select_house_by_name (house_name : str) : statement :=
  query (λ d,
    house_cols <$> filter (λ h, h_house_name h = house_name) (houses d)).

(** [SELECT house_name, house_id FROM houses] *)
Definition sql_select_houses : statement :=
  query (λ d, (λ h, [VStr (h_house_name h); VInt (h_house_id h)]) <$> houses d).

(** [SELECT DISTINCT house_name, house_id FROM houses LEFT JOIN user_houses
    USING (house_id) WHERE house_id NOT IN (SELECT house_id FROM user_houses
    WHERE user_id = %s)].  [distinct] is the server's [DISTINCT] step, which
    hands out every row once, sorted or in the order of a hash table as the
    planner decides. *)
Definition sql_select_houses_to_join (distinct : list row → list row)
  (user_id : Z) : statement :=
  query (λ d,
    let joined :=
      m_house_id <$> filter (λ m, m_user_id m = user_id) (user_houses d) in
    distinct
      ((λ hm : house_row * option membership_row,
          [VStr (h_house_name hm.1); VInt (h_house_id hm.1)])
       <$> filter (λ hm : house_row * option membership_row,
                     h_house_id hm.1 ∉ joined)
             (left_join h_house_id m_house_id (houses d) (user_houses d)))).

(** [SELECT id FROM users WHERE email = %s] *)
Definition sql_select_user_id_by_email (email : str) : statement :=
  query (λ d,
    (λ u, [VInt (u_id u)]) <$> filter (λ u, u_email u = email) (users d)).

(** [SELECT house_name, house_id FROM user_houses LEFT JOIN houses
    USING (house_id) WHERE user_id = %s] *)
Definition sql_select_user_houses (user_id : Z) : statement :=
  query (λ d,
    (λ mh : membership_row * option house_row,
       [from_option (λ h, VStr (h_house_name h)) VNull mh.2;
        VInt (m_house_id mh.1)])
    <$> filter (λ mh : membership_row * option house_row,
                  m_user_id mh.1 = user_id)
          (left_join m_house_id h_house_id (user_houses d) (houses d))).

(** [DELETE FROM user_houses WHERE user_id = %s AND house_id = %s] *)
Definition sql_delete_user_house (user_id house_id : Z) : statement :=
  command (set_user_houses
    (filter (λ m, ¬ (m_user_id m = user_id ∧ m_house_id m = house_id)))).

(** [SELECT u.username FROM users u JOIN user_houses uh
    ON u.id = uh.user_id WHERE uh.house_id = %s] *)
Definition sql_select_member_usernames (house_id : Z) : statement :=
  query (λ d,
    (λ um : user_row * membership_row, [VStr (u_username um.1)])
    <$> filter (λ um : user_row * membership_row, m_house_id um.2 = house_id)
          (inner_join u_id m_user_id (users d) (user_houses d))).

(** [SELECT COUNT( * ) FROM user_houses WHERE house_id = %s] *)
Definition sql_count_user_houses (house_id : Z) : statement :=
  query (λ d,
    [[VInt (Z.of_nat
        (length (filter (λ m, m_house_id m = house_id) (user_houses d))))]]).

(** [DELETE FROM houses WHERE house_id = %s]: refused while a membership,
    a task or a restriction points to a house it would delete. *)
Definition sql_delete_house (house_id : Z) : statement :=
  constrained (λ d, has_house house_id d → unreferenced house_id d)
    (command (set_houses (filter (λ h, h_house_id h ≠ house_id)))).

(** [DELETE FROM tasks WHERE house_id = %s] *)
Definition sql_delete_tasks_by_house (house_id : Z) : statement :=
  command (set_tasks (filter (λ t, t_house_id t ≠ house_id))).

(** [SELECT u.id, u.username FROM users u JOIN user_houses uh
    ON u.id = uh.user_id WHERE uh.house_id = %s] *)
Definition sql_select_member_ids (house_id : Z) : statement :=
  query (λ d,
    (λ um : user_row * membership_row,
       [VInt (u_id um.1); VStr (u_username um.1)])
    <$> filter (λ um : user_row * membership_row, m_house_id um.2 = house_id)
          (inner_join u_id m_user_id (users d) (user_houses d))).

(** [SELECT house_name FROM houses WHERE house_id = %s] *)
Definition sql_select_house_name_by_id (house_id : Z) : statement :=
  query (λ d,
    (λ h, [VStr (h_house_name h)])
    <$> filter (λ h, h_house_id h = house_id) (houses d)).

(** [SELECT username FROM users WHERE id = %s] *)
Definition sql_select_username_by_id (user_id : Z) : statement :=
  query (λ d,
    (λ u, [VStr (u_username u)]) <$> filter (λ u, u_id u = user_id) (users d)).

(** [INSERT INTO tasks (task_name, user_id, house_id, added_timestamp,
    due_date) VALUES (%s, %s, %s, %s, %s)]: the [task_id] of the new row is
    drawn before its foreign keys are checked. *)
Definition sql_insert_task (task_name : str) (user_id house_id : Z)
  (added_timestamp due_date : datetime) : statement := λ d,
  if decide (has_user user_id d ∧ has_house house_id d)
  then
    (Ok [],
     bump_tasks_task_id_seq
       (set_tasks (λ ts, ts ++ [{| t_task_id := tasks_task_id_seq d;
                                   t_task_name := task_name;
                                   t_user_id := user_id;
                                   t_house_id := house_id;
                                   t_added_timestamp := added_timestamp;
                                   t_due_date := due_date |}]) d))
  else (Raise IntegrityError, bump_tasks_task_id_seq d).



(** [DELETE FROM restrictions WHERE house_id = %s] *)
Definition sql_delete_restrictions_by_house (house_id : Z) : statement :=
  command (set_restrictions (filter (λ r, r_house_id r ≠ house_id))).

(** [SELECT * FROM tasks WHERE house_id = %s] *)
Definition sql_select_tasks_by_house (house_id : Z) : statement :=
  query (λ d, task_cols <$> filter (λ t, t_house_id t = house_id) (tasks d)).


(** [INSERT INTO restrictions (house_id, user_id, diet_restrictions,
    schedule_restrictions) VALUES (%s, %s, %s, %s)] *)
Definition sql_insert_restrictions (house_id user_id : Z)
  (diet_restrictions schedule_restrictions : str) : statement :=
  constrained (λ d, has_house house_id d ∧ has_user user_id d)
    (command (set_restrictions (λ rs,
       rs ++ [{| r_house_id := house_id; r_user_id := user_id;
                 r_diet_restrictions := diet_restrictions;
                 r_schedule_restrictions := schedule_restrictions |}]))).

(** [SELECT * FROM restrictions WHERE house_id = %s] *)
Definition sql_select_restrictions (house_id : Z) : statement :=
  query (λ d,
    restriction_cols
    <$> filter (λ r, r_house_id r = house_id) (restrictions d)).

(** ** The connection pool

    [psycopg2.pool.ThreadedConnectionPool] is a dependency of the
    repository; its state is kept as the driver keeps it: the idle
    connections, the connections handed out, and the two bounds. *)

Definition conn := nat.

Record pool_state := {
  minconn : nat;
  maxconn : nat;
  dsn : str;
  sslmode : str;
  idle : list conn;       (* [_pool], top of the stack first *)
  used : list conn;       (* [_used] *)
  opened : nat }.         (* connections opened so far: the next fresh one *)

(** [ThreadedConnectionPool(minconn, maxconn, dsn=.., sslmode=..)]: the
    constructor opens [minconn] connections. *)
Definition ThreadedConnectionPool (minconn maxconn : nat) (dsn sslmode : str)
  : pool_state :=
  {| minconn := minconn; maxconn := maxconn; dsn := dsn; sslmode := sslmode;
     idle := seq 0 minconn; used := []; opened := minconn |}.

(** [setup] (data.py 38-42); [environ] is [os.environ]. *)
Definition setup (environ : gmap str str) : result pool_state :=
  match environ !! lit "DATABASE_URL" with
  | None => Raise KeyError
  | Some DATABASE_URL =>
      Ok (ThreadedConnectionPool 1 100 DATABASE_URL (lit "require"))
  end.

(** What a data-access operation runs against: the pool, the committed
    store every connection sees, and the fate of the coming exchanges with
    the server ([true]: the exchange fails; past the end of the list every
    exchange succeeds). *)
Record world := {
  pool : pool_state;
  committed : DB;
  faults : list bool }.

Definition M := SE world.

(** One exchange with the server. *)
Definition exchange (fs : list bool) : result unit * list bool :=
  match fs with
  | true :: fs' => (Raise OperationalError, fs')
  | false :: fs' => (Ok (), fs')
  | [] => (Ok (), [])
  end.

(** [pool.getconn()]: reuse an idle connection, else open a new one unless
    [maxconn] connections are out. *)
Definition getconn : M conn := λ w,
  let p := pool w in
  match idle p with
  | c :: rest =>
      (Ok c,
       {| pool := {| minconn := minconn p; maxconn := maxconn p;
                     dsn := dsn p; sslmode := sslmode p; idle := rest;
                     used := c :: used p; opened := opened p |};
          committed := committed w; faults := faults w |})
  | [] =>
      if bool_decide (length (used p) = maxconn p)
      then (Raise PoolError, w)
      else
        match exchange (faults w) with
        | (Raise e, fs) =>
            (Raise e,
             {| pool := p; committed := committed w; faults := fs |})
        | (Ok _, fs) =>
            let c := opened p in
            (Ok c,
             {| pool := {| minconn := minconn p; maxconn := maxconn p;
                           dsn := dsn p; sslmode := sslmode p; idle := [];
                           used := c :: used p; opened := S (opened p) |};
                committed := committed w; faults := fs |})
        end
  end.

(** [pool.putconn(connection)]: the connection leaves [used]; it is kept
    idle while fewer than [minconn] are, and closed otherwise. *)
Definition putconn (connection : conn) : M unit := λ w,
  let p := pool w in
  if bool_decide (connection ∈ used p)
  then
    (Ok (),
     {| pool := {| minconn := minconn p; maxconn := maxconn p;
                   dsn := dsn p; sslmode := sslmode p;
                   idle := if bool_decide (length (idle p) < minconn p)
                           then connection :: idle p else idle p;
                   used := filter (λ c, c ≠ connection) (used p);
                   opened := opened p |};
        committed := committed w; faults := faults w |})
  else (Raise PoolError, w).

(** [get_db_connection] (data.py 45-51), applied to the body of its [with]
    block.  When [pool.getconn()] raises, the name [connection] is unbound
    in the [finally] clause, whose own error is the one that propagates. *)
Definition get_db_connection {A} (body : conn → M A) : M A := λ w,
  match getconn w with
  | (Ok connection, w1) =>
      try_finally (body connection) (putconn connection) w1
  | (Raise _, w1) => (Raise UnboundLocalError, w1)
  end.

(** ** Cursors and transactions *)

(** The state a connection and its cursor work on: the store as committed,
    the store as seen inside the open transaction, the rows of the last
    statement still to be fetched, and the fate of the coming exchanges. *)
Record session := {
  durable : DB;
  txn : DB;
  pending : list row;
  wire : list bool }.

Definition C := SE session.

(** What the driver does to a statement parameter before anything is sent:
    a [str] is encoded in UTF-8, the encoding of the connection, which a
    lone surrogate (U+D800 to U+DFFF) does not allow, and is then quoted,
    which a NUL character does not allow.  An integer is rendered in
    decimal and a timestamp in ISO form; ids and dates are database values,
    and the model lets every one of them pass. *)
Definition surrogate (c : N) : bool := bool_decide (55296 ≤ c ≤ 57343)%N.

Definition adapt (v : val) : result unit :=
  match v with
  | VStr s =>
      if existsb surrogate s then Raise UnicodeEncodeError
      else if bool_decide (0%N ∈ s) then Raise ValueError
      else Ok ()
  | _ => Ok ()
  end.

(** The parameters are adapted from left to right. *)
Fixpoint mogrify (params : list val) : result unit :=
  match params with
  | [] => Ok ()
  | v :: rest =>
      match adapt v with
      | Ok _ => mogrify rest
      | Raise e => Raise e
      end
  end.

(** [cur.execute(statement, params)]: [st] is the statement with its
    parameters filled in, [params] the tuple of parameters as Python passes
    it. *)
Definition execute (st : statement) (params : list val) : C unit := λ s,
  match mogrify params with
  | Raise e => (Raise e, s)
  | Ok _ =>
      match exchange (wire s) with
      | (Raise e, fs) =>
          (Raise e, {| durable := durable s; txn := txn s;
                       pending := pending s; wire := fs |})
      | (Ok _, fs) =>
          match st (txn s) with
          | (Ok rows, d) =>
              (Ok (), {| durable := durable s; txn := d; pending := rows;
                         wire := fs |})
          | (Raise e, d) =>
              (Raise e, {| durable := durable s; txn := d;
                           pending := pending s; wire := fs |})
          end
      end
  end.

(** [cur.fetchone()] *)
Definition fetchone : C (option row) := λ s,
  match pending s with
  | [] => (Ok None, s)
  | r :: rest =>
      (Ok (Some r), {| durable := durable s; txn := txn s; pending := rest;
                       wire := wire s |})
  end.

(** [cur.fetchall()] *)
Definition fetchall : C (list row) := λ s,
  (Ok (pending s), {| durable := durable s; txn := txn s; pending := [];
                      wire := wire s |}).

(** [connection.commit()] *)
Definition connection_commit : C unit := λ s,
  match exchange (wire s) with
  | (Raise e, fs) =>
      (Raise e, {| durable := durable s; txn := txn s;
                   pending := pending s; wire := fs |})
  | (Ok _, fs) =>
      (Ok (), {| durable := txn s; txn := txn s; pending := pending s;
                 wire := fs |})
  end.

(** [cursor.close()] *)
Definition cursor_close : C unit := λ s,
  (Ok (), {| durable := durable s; txn := txn s; pending := [];
             wire := wire s |}).

(** [connection.cursor(cursor_factory=DictCursor)] opens the session on the
    committed store; what the session leaves uncommitted is rolled back
    when the connection goes back to the pool, the sequences apart. *)
Definition with_cursor {A} (c : C A) : M A := λ w,
  let '(r, s) := c {| durable := committed w; txn := committed w;
                      pending := []; wire := faults w |} in
  (r, {| pool := pool w; committed := with_sequences_of (txn s) (durable s);
         faults := wire s |}).

(** [get_db_cursor] (data.py 54-64), applied to the body of its [with]
    block. *)
Definition get_db_cursor {A} (commit : bool) (body : C A) : M A :=
  get_db_connection (λ connection,
    with_cursor
      (try_finally
         (x ← body;
          (if commit then connection_commit else mret ());;
          mret x)
         cursor_close)).

(** ** Python values at the call sites *)

(** [r[i]] for the result of [fetchone()], which may be [None]. *)
Definition getitem (r : option row) (i : nat) : result val :=
  match r with
  | None => Raise TypeError
  | Some r =>
      match r !! i with
      | Some v => Ok v
      | None => Raise IndexError
      end
  end.

(** An integer statement parameter; the server rejects anything else for an
    integer column. *)
Definition int_param (v : val) : result Z :=
  match v with
  | VInt z => Ok z
  | _ => Raise OperationalError
  end.

(** Truth value of a fetched row ([None] and the empty row are false). *)
Definition truthy (r : option row) : bool :=
  match r with
  | Some (_ :: _) => true
  | _ => false
  end.

(** [v == z] for an integer literal [z]. *)
Definition eq_int (v : val) (z : Z) : bool := bool_decide (v = VInt z).

(** ** The data-access operations (data.py) *)

Definition create_user_account (username email : str) : M unit :=
  get_db_cursor true
    (execute (sql_insert_user username email) [VStr username; VStr email]).

Definition check_user_exists (email : str) : M (option row) :=
  get_db_cursor false
    (execute (sql_select_username_by_email email) [VStr email];; fetchone).

Definition create_house (house_name : str) (creator_id : Z) : M unit :=
  let formatted_name := formatted_name house_name in
  get_db_cursor true
    (execute (sql_insert_house formatted_name) [VStr formatted_name];;
     r ← fetchone;
     house_id ← lift_result (v ← getitem r 0; int_param v);
     execute (sql_insert_user_house creator_id house_id)
       [VInt creator_id; VInt house_id]).

Definition check_house_exists (house_name : str) : M (option row) :=
  get_db_cursor false
    (execute (sql_select_house_by_name house_name) [VStr house_name];;
     fetchone).

Definition get_houses : M (list row) :=
  get_db_cursor false (execute sql_select_houses [];; fetchall).

Definition get_houses_to_join (distinct : list row → list row) (user_id : Z)
  : M (list row) :=
  get_db_cursor false
    (execute (sql_select_houses_to_join distinct user_id) [VInt user_id];;
     fetchall).

Definition get_user_id (user_email : str) : M (option row) :=
  get_db_cursor false
    (execute (sql_select_user_id_by_email user_email) [VStr user_email];;
     fetchone).

Definition get_user_houses (user_id : Z) : M (list row) :=
  get_db_cursor false
    (execute (sql_select_user_houses user_id) [VInt user_id];; fetchall).

Definition add_user_house (user_id house_id : Z) : M unit :=
  get_db_cursor true
    (execute (sql_insert_user_house user_id house_id)
       [VInt user_id; VInt house_id]).


(** The placeholder of [get_house_members]. *)
Definition NO_MEMBERS : list val := [VStr (lit "No members")].

Definition get_house_members (house_id : Z) : M (list val) :=
  get_db_cursor false
    (execute (sql_select_member_usernames house_id) [VInt house_id];;
     members ← fetchall;
     match members with
     | _ :: _ =>
         lift_result (comprehension (λ member, getitem (Some member) 0) members)
     | [] => mret NO_MEMBERS
     end).

Definition leave_house (user_id house_id : Z) : M unit :=
  get_db_cursor true
    (execute (sql_delete_user_house user_id house_id)
       [VInt user_id; VInt house_id];;
     execute (sql_count_user_houses house_id) [VInt house_id];;
     r ← fetchone;
     count ← lift_result (getitem r 0);
     if eq_int count 0
     then execute (sql_delete_house house_id) [VInt house_id]
     else mret ()).

Definition delete_tasks_by_house (house_id : Z) : M unit :=
  get_db_cursor true
    (execute (sql_delete_tasks_by_house house_id) [VInt house_id]).

Definition is_last_member (house_id : Z) : M bool :=
  get_db_cursor false
    (execute (sql_count_user_houses house_id) [VInt house_id];;
     r ← fetchone;
     num_members ← lift_result (getitem r 0);
     mret (eq_int num_members 1)).

Definition delete_house (house_id : Z) : M unit :=
  get_db_cursor true (execute (sql_delete_house house_id) [VInt house_id]).

(** [{member[1]: member[0] for member in members}]: a later row replaces an
    earlier one under the same key. *)
Definition member_dict (members : list row) : result (gmap val val) :=
  foldl (λ acc member,
           d ← acc;
           k ← getitem (Some member) 1;
           v ← getitem (Some member) 0;
           Ok (<[k := v]> d))
        (Ok ∅) members.

Definition get_member_id_dict (house_id : Z) : M (gmap val val) :=
  get_db_cursor false
    (execute (sql_select_member_ids house_id) [VInt house_id];;
     members ← fetchall;
     lift_result (member_dict members)).

Definition get_house_name_by_id (house_id : Z) : M (option val) :=
  get_db_cursor false
    (execute (sql_select_house_name_by_id house_id) [VInt house_id];;
     result ← fetchone;
     if truthy result
     then v ← lift_result (getitem result 0); mret (Some v)
     else mret None).

Definition get_user_by_id (user_id : Z) : M (option row) :=
  get_db_cursor false
    (execute (sql_select_username_by_id user_id) [VInt user_id];;
     result ← fetchone;
     mret result).


(** [now] is the value of [datetime.now()] at the call. *)
Definition insert_task (now : datetime) (task_name : str)
  (user_id house_id : Z) (task_due_date : datetime) : M unit :=
  get_db_cursor true
    (execute (sql_insert_task task_name user_id house_id now task_due_date)
       [VStr task_name; VInt user_id; VInt house_id; VTime now;
        VTime task_due_date]).



Definition delete_restrictions_by_house (house_id : Z) : M unit :=
  get_db_cursor true
    (execute (sql_delete_restrictions_by_house house_id) [VInt house_id]).

Definition get_tasks_by_house_id (house_id : Z) : M (list row) :=
  get_db_cursor false
    (execute (sql_select_tasks_by_house house_id) [VInt house_id];;
     tasks ← fetchall;
     mret tasks).

(** [format_task] stands for the body of the loop (data.py 238-242), which
    renders one task row as [(task_id, "<name> due <date>")]. *)
Definition get_tasks_with_due_dates {T} (format_task : row → result T)
  (house_id : Z) : M (list T) :=
  tasks ← get_tasks_by_house_id house_id;
  lift_result (comprehension format_task tasks).


Definition insert_restrictions (house_id user_id : Z)
  (dietary_restrictions schedule_restrictions : str) : M unit :=
  get_db_cursor true
    (execute (sql_insert_restrictions house_id user_id dietary_restrictions
                schedule_restrictions)
       [VInt house_id; VInt user_id; VStr dietary_restrictions;
        VStr schedule_restrictions]).

Definition get_restrictions (house_id : Z) : M (list row) :=
  get_db_cursor false
    (execute (sql_select_restrictions house_id) [VInt house_id];; fetchall).

(** ** The request handlers (server.py) *)

Inductive response :=
| Redirect (location : str)
| JsonOk.                          (* [jsonify({"result": "ok"})] *)

(** [user_home], POST branch (server.py 125-137).  [form_house_name] is
    [request.form.get("house-name")], [user_id] is [session["user_id"]]. *)
Definition user_home_post (form_house_name : option str) (user_id : Z)
  : M response :=
  match form_house_name with
  | None => raise AttributeError
  | Some house_name =>
      let house_name := strip house_name in
      if isspace house_name || bool_decide (house_name = [])
      then mret (Redirect (lit "/user/home"))
      else if bool_decide (length house_name ≤ 20)
      then
        found ← check_house_exists house_name;
        (if negb (truthy found)
         then create_house house_name user_id
         else mret ());;
        mret (Redirect (lit "/user/home#load-section"))
      else mret (Redirect (lit "/user/home"))
  end.

(** [join_house] route (server.py 146-150). *)
Definition join_house_route (user_id house_id : Z) : M response :=
  add_user_house user_id house_id;;
  mret JsonOk.

(** [leave_house_route] (server.py 154-168). *)
Definition leave_house_route (user_id house_id : Z) : M response :=
  last ← is_last_member house_id;
  (if last : bool
   then delete_tasks_by_house house_id;;
        delete_restrictions_by_house house_id
   else mret ());;
  leave_house user_id house_id;;
  last ← is_last_member house_id;
  (if last : bool then delete_house house_id else mret ());;
  mret JsonOk.

(** ** Vocabulary of the statements proved in Part II *)

(** The pool's bookkeeping is consistent: no connection is listed twice
    and every listed connection has been opened. *)
Definition pool_wf (p : pool_state) : Prop :=
  NoDup (idle p ++ used p) ∧ Forall (λ c, c < opened p) (idle p ++ used p).

(** The store satisfies its foreign keys, as every store the server holds
    does. *)
Definition consistent (d : DB) : Prop :=
  Forall (λ m, has_user (m_user_id m) d ∧ has_house (m_house_id m) d)
    (user_houses d)
  ∧ Forall (λ t, has_user (t_user_id t) d ∧ has_house (t_house_id t) d)
      (tasks d)
  ∧ Forall (λ r, has_house (r_house_id r) d ∧ has_user (r_user_id r) d)
      (restrictions d).

(** A world in which an operation is served: the pool is consistent and
    not exhausted, no exchange with the server is going to fail, and the
    committed store satisfies its foreign keys. *)
Definition serving (w : world) : Prop :=
  pool_wf (pool w) ∧ length (used (pool w)) < maxconn (pool w)
  ∧ faults w = [] ∧ consistent (committed w).

(** A string the driver can send as a parameter: no NUL character and no
    lone surrogate. *)
Definition sendable (s : str) : Prop :=
  Forall (λ c, c ≠ 0%N ∧ surrogate c = false) s.

(** What the server's [DISTINCT] step is known to do: every row it is given
    comes out, once. *)
Definition distinct_step (distinct : list row → list row) : Prop :=
  ∀ rows, NoDup (distinct rows) ∧ ∀ r, r ∈ distinct rows ↔ r ∈ rows.

(** The rows of the five tables, without the sequences. *)
Definition tables (d : DB) :=
  (users d, houses d, user_houses d, tasks d, restrictions d).

(** The pool after one connection has been taken and put back. *)
Definition recycle (p : pool_state) : pool_state :=
  match idle p with
  | c :: rest =>
      {| minconn := minconn p; maxconn := maxconn p; dsn := dsn p;
         sslmode := sslmode p;
         idle := if bool_decide (length rest < minconn p)
                 then c :: rest else rest;
         used := used p; opened := opened p |}
  | [] =>
      {| minconn := minconn p; maxconn := maxconn p; dsn := dsn p;
         sslmode := sslmode p;
         idle := if bool_decide (0 < minconn p) then [opened p] else [];
         used := used p; opened := S (opened p) |}
  end.

(** The world after a served operation that leaves the store as [d]. *)
Definition next (w : world) (d : DB) : world :=
  {| pool := recycle (pool w); committed := d; faults := [] |}.

(** The session a cursor opens in [w]. *)
Definition session_of (w : world) : session :=
  {| durable := committed w; txn := committed w; pending := [];
     wire := faults w |}.

(** Not-found conditions: the key occurs in no row that could carry it. *)
Definition email_absent (email : str) (d : DB) : Prop :=
  Forall (λ u, u_email u ≠ email) (users d).

Definition house_name_absent (house_name : str) (d : DB) : Prop :=
  Forall (λ h, h_house_name h ≠ house_name) (houses d).

Definition house_id_absent (house_id : Z) (d : DB) : Prop :=
  Forall (λ h, h_house_id h ≠ house_id) (houses d)
  ∧ Forall (λ m, m_house_id m ≠ house_id) (user_houses d)
  ∧ Forall (λ t, t_house_id t ≠ house_id) (tasks d)
  ∧ Forall (λ r, r_house_id r ≠ house_id) (restrictions d).

Definition user_id_absent (user_id : Z) (d : DB) : Prop :=
  Forall (λ u, u_id u ≠ user_id) (users d)
  ∧ Forall (λ m, m_user_id m ≠ user_id) (user_houses d)
  ∧ Forall (λ t, t_user_id t ≠ user_id) (tasks d)
  ∧ Forall (λ r, r_user_id r ≠ user_id) (restrictions d).

(** The membership rows of a house, and those one user holds in it. *)
Definition memberships_of (house_id : Z) (d : DB) : list membership_row :=
  filter (λ m, m_house_id m = house_id) (user_houses d).

Definition memberships_of_user (user_id house_id : Z) (d : DB)
  : list membership_row :=
  filter (λ m, m_user_id m = user_id ∧ m_house_id m = house_id)
    (user_houses d).



(** The usernames of the members of a house: one entry for every pair of a
    user row and a membership row of that user in the house. *)
Definition member_names (house_id : Z) (d : DB) : list val :=
  u ← users d;
  (λ _, VStr (u_username u)) <$> memberships_of_user (u_id u) house_id d.

(** The two day boundaries around a timestamp. *)
Definition own_midnight (t : datetime) : datetime := replace_midnight t.

Definition next_midnight (t : datetime) : datetime :=
  {| ordinal := ordinal t + 1; hour := 0; minute := 0; second := 0;
     microsecond := 0 |}.

Definition is_midnight (t : datetime) : Prop :=
  hour t = 0%Z ∧ minute t = 0%Z ∧ second t = 0%Z ∧ microsecond t = 0%Z.

Definition is_noon (t : datetime) : Prop :=
  hour t = 12%Z ∧ minute t = 0%Z ∧ second t = 0%Z ∧ microsecond t = 0%Z.

Definition distance (a b : datetime) : Z := Z.abs (to_us a - to_us b).

(** Microseconds elapsed since the start of the day of [t]. *)
Definition time_of_day (t : datetime) : Z := (to_us t - to_us (own_midnight t))%Z.

Definition HALF_DAY : Z := 43200000000.

(** ** Concrete worlds *)

Definition empty_store : DB :=
  {| users := []; houses := []; user_houses := []; tasks := [];
     restrictions := []; users_id_seq := 1; houses_house_id_seq := 1;
     tasks_task_id_seq := 1 |}.

(** The pool as [setup] creates it. *)
Definition fresh_pool : pool_state :=
  ThreadedConnectionPool 1 100 (lit "postgresql://roomhub") (lit "require").

Definition world_of (d : DB) (fs : list bool) : world :=
  {| pool := fresh_pool; committed := d; faults := fs |}.

Definition alice : user_row :=
  {| u_id := 1; u_username := lit "alice"; u_email := lit "alice@x.com" |}.

Definition maple_st : house_row :=
  {| h_house_id := 1; h_house_name := lit "Maple St" |}.

(** 2024-03-09 18:30 and 2024-03-01 09:00 *)
Definition due_2024_03_09 : datetime :=
  {| ordinal := 738954; hour := 18; minute := 30; second := 0;
     microsecond := 0 |}.

Definition now_2024_03_01 : datetime :=
  {| ordinal := 738946; hour := 9; minute := 0; second := 0;
     microsecond := 0 |}.

Definition dishes : task_row :=
  {| t_task_id := 1; t_task_name := lit "dishes"; t_user_id := 1;
     t_house_id := 1; t_added_timestamp := now_2024_03_01;
     t_due_date := due_2024_03_09 |}.

Definition vegan : restriction_row :=
  {| r_house_id := 1; r_user_id := 1; r_diet_restrictions := lit "vegan";
     r_schedule_restrictions := lit "no mornings" |}.

(** One house, its creator as only member, one task, one restriction. *)
Definition maple_store : DB :=
  {| users := [alice]; houses := [maple_st];
     user_houses := [{| m_user_id := 1; m_house_id := 1 |}];
     tasks := [dishes]; restrictions := [vegan];
     users_id_seq := 2; houses_house_id_seq := 2; tasks_task_id_seq := 2 |}.

(** The requests that build [maple_store] from nothing. *)
Definition build_maple : M unit :=
  create_user_account (lit "alice") (lit "alice@x.com");;
  user_home_post (Some (lit "Maple St")) 1;;
  insert_task now_2024_03_01 (lit "dishes") 1 1 due_2024_03_09;;
  insert_restrictions 1 1 (lit "vegan") (lit "no mornings").

(** The same house after its member has pressed "join" once more. *)
Definition joined_twice_store : DB :=
  set_user_houses (λ ms, ms ++ [{| m_user_id := 1; m_house_id := 1 |}])
    maple_store.

(** The same house with a second member. *)
Definition bob : user_row :=
  {| u_id := 2; u_username := lit "bob"; u_email := lit "bob@x.com" |}.

Definition shared_store : DB :=
  set_users (λ us, us ++ [bob])
    (set_user_houses (λ ms, ms ++ [{| m_user_id := 2; m_house_id := 1 |}])
       maple_store).

(** A user whose nickname is the placeholder text, member of house 7. *)
Definition placeholder_store : DB :=
  {| users := [{| u_id := 1; u_username := lit "No members";
                  u_email := lit "nm@x.com" |}];
     houses := [{| h_house_id := 7; h_house_name := lit "Elm" |}];
     user_houses := [{| m_user_id := 1; m_house_id := 7 |}];
     tasks := []; restrictions := [];
     users_id_seq := 2; houses_house_id_seq := 8; tasks_task_id_seq := 1 |}.

(** 9999-12-31 13:00:00, a valid [datetime]. *)
Definition last_afternoon : datetime :=
  {| ordinal := MAXORDINAL; hour := 13; minute := 0; second := 0;
     microsecond := 0 |}.

(** * Part II: the proofs *)

(** ** House-name formatting *)

Section formatting.

Implicit Types (s t : str) (c : N) (b : bool).

Lemma isspace_char_space : isspace_char space = true.
Proof. reflexivity. Qed.

Lemma not_space_of_not_isspace c : isspace_char c = false → c ≠ space.
Proof. intros H ->. discriminate. Qed.

(** *** The loops compute [collapse_runs] *)

Lemma collapse_runs_from_head_not_space b s :
  head s ≠ Some space →
  collapse_runs_from false s = collapse_runs_from b s.
Proof.
  destruct s as [|c r]; [done|]. simpl. intros Hc.
  rewrite bool_decide_eq_false_2; [done|]. congruence.
Qed.

Lemma skip_spaces_collapse s i :
  collapse_runs_from false (drop (S (skip_spaces s i)) s)
  = collapse_runs_from true (drop (S i) s).
Proof.
  funelim (skip_spaces s i).
  - match goal with
    | Hc : _ && _ = true |- _ =>
        destruct (andb_prop _ _ Hc) as [_ Hsp%bool_decide_eq_true]
    end.
    match goal with
    | IH : collapse_runs_from false _ = _ |- _ => rewrite IH
    end.
    rewrite Nat.add_1_r in Hsp |- *.
    by rewrite (drop_S _ _ _ Hsp).
  - apply collapse_runs_from_head_not_space.
    match goal with
    | Hc : _ && _ = false |- _ =>
        destruct (proj1 (andb_false_iff _ _) Hc)
          as [Hlen%bool_decide_eq_false|Hne%bool_decide_eq_false]
    end.
    + rewrite drop_ge; [done|lia].
    + rewrite Nat.add_1_r in Hne. destruct (s !! S i) as [c|] eqn:E.
      * rewrite (drop_S _ _ _ E). simpl. congruence.
      * rewrite drop_ge; [done|]. by apply lookup_ge_None.
Qed.

Lemma format_loop_collapse s i out :
  format_loop s i out = out ++ collapse_runs_from false (drop i s).
Proof.
  funelim (format_loop s i out);
    try match goal with
        | IH : format_loop _ _ _ = _ ++ _ |- _ => rewrite IH
        end.
  - match goal with
    | Hi : _ !! _ = None |- _ =>
        pose proof (proj1 (lookup_ge_None _ _) Hi)
    end.
    by rewrite drop_ge, app_nil_r.
  - match goal with
    | Hc : bool_decide (_ = space) = true |- _ =>
        pose proof (proj1 (bool_decide_eq_true _) Hc); subst
    end.
    match goal with
    | Hi : _ !! _ = Some _ |- _ => rewrite (drop_S _ _ _ Hi)
    end.
    simpl.
    by rewrite Nat.add_1_r, skip_spaces_collapse, <- app_assoc.
  - match goal with
    | Hi : _ !! _ = Some _ |- _ => rewrite (drop_S _ _ _ Hi)
    end.
    simpl.
    match goal with
    | Hc : bool_decide (_ = space) = false |- _ => rewrite Hc
    end.
    by rewrite Nat.add_1_r, <- app_assoc.
Qed.

Lemma formatted_name_normalize s : formatted_name s = normalize s.
Proof. unfold formatted_name. by rewrite format_loop_collapse. Qed.


(** *** What [collapse_runs] guarantees *)

Lemma no_double_space_nil : no_double_space [].
Proof. by intros [|i]. Qed.

Lemma no_double_space_cons c s :
  no_double_space (c :: s)
  ↔ (c = space → head s ≠ Some space) ∧ no_double_space s.
Proof.
  split.
  - intros H. split.
    + intros -> Hs. apply (H 0%nat); [done|]. by destruct s.
    + intros i. apply (H (S i)).
  - intros [Hc Hs] [|i]; simpl.
    + intros [= ->]. destruct s; [done|]. by apply Hc.
    + apply Hs.
Qed.

Lemma collapse_runs_from_true_head s :
  head (collapse_runs_from true s) ≠ Some space.
Proof.
  induction s as [|c r IH]; [done|]. simpl.
  case_bool_decide; [done|]. simpl. congruence.
Qed.

Lemma collapse_runs_from_no_double_space b s :
  no_double_space (collapse_runs_from b s).
Proof.
  revert b. induction s as [|c r IH]; intros b; simpl.
  - apply no_double_space_nil.
  - case_bool_decide; [destruct b|]; try apply IH.
    + apply no_double_space_cons. split; [|apply IH].
      intros _. apply collapse_runs_from_true_head.
    + apply no_double_space_cons. split; [done|apply IH].
Qed.

Lemma collapse_runs_from_non_spaces b s :
  non_spaces (collapse_runs_from b s) = non_spaces s.
Proof.
  unfold non_spaces. revert b.
  induction s as [|c r IH]; intros b; [done|]. cbn [collapse_runs_from].
  case_bool_decide as Hc.
  - rewrite (filter_cons_False _ c) by naive_solver.
    destruct b; [apply IH|].
    rewrite (filter_cons_False _ space) by naive_solver. apply IH.
  - by rewrite !(filter_cons_True _ c), IH.
Qed.

Lemma collapse_runs_from_head s :
  head (collapse_runs_from false s) = head s.
Proof. destruct s as [|c r]; [done|]. simpl. by case_bool_decide; subst. Qed.

Lemma collapse_runs_from_last b s c :
  last s = Some c → c ≠ space → last (collapse_runs_from b s) = Some c.
Proof.
  intros Hl Hc. revert b Hl.
  induction s as [|c' r IH]; intros b Hl; [done|].
  destruct (decide (r = [])) as [->|Hr].
  - injection Hl as ->. simpl. by rewrite bool_decide_eq_false_2.
  - assert (last r = Some c) as Hlr.
    { destruct r; [done|]. by rewrite last_cons_cons in Hl. }
    assert (∀ b' x, last (x :: collapse_runs_from b' r) = Some c) as Hx.
    { intros b' x. by rewrite last_cons, IH. }
    simpl. case_bool_decide; [destruct b|]; [by apply IH|apply Hx..].
Qed.

Lemma collapse_runs_from_fixed b s :
  (b = true → head s ≠ Some space) → no_double_space s →
  collapse_runs_from b s = s.
Proof.
  revert b. induction s as [|c r IH]; intros b Hb Hs; [done|].
  apply no_double_space_cons in Hs as [Hc Hr]. simpl.
  case_bool_decide as Hsp.
  - subst c. destruct b; [by destruct Hb|].
    f_equal. apply IH; [|done]. intros _. by apply Hc.
  - f_equal. by apply IH.
Qed.

(** *** What [strip] guarantees *)

Lemma lstrip_head s c : head (lstrip s) = Some c → isspace_char c = false.
Proof.
  induction s as [|c' r IH]; [done|]. simpl.
  destruct (isspace_char c') eqn:E; [done|]. by intros [= <-].
Qed.

Lemma lstrip_fixed s :
  (∀ c, head s = Some c → isspace_char c = false) → lstrip s = s.
Proof. destruct s as [|c r]; [done|]. simpl. intros H. by rewrite H. Qed.

(** [lstrip] removes a prefix of whitespace. *)
Lemma lstrip_prefix s :
  ∃ ws, s = ws ++ lstrip s ∧ Forall (λ c, isspace_char c = true) ws.
Proof.
  induction s as [|c r (ws & Hr & Hws)]; [by exists []|]. simpl.
  destruct (isspace_char c) eqn:E.
  - exists (c :: ws). split; [by rewrite <- app_comm_cons, <- Hr|].
    by constructor.
  - by exists [].
Qed.

Lemma rstrip_suffix s :
  ∃ ws, s = rstrip s ++ ws ∧ Forall (λ c, isspace_char c = true) ws.
Proof.
  destruct (lstrip_prefix (reverse s)) as (ws & Hs & Hws).
  exists (reverse ws). split.
  - unfold rstrip. rewrite <- reverse_app, <- Hs. by rewrite reverse_involutive.
  - by apply Forall_reverse.
Qed.

Lemma rstrip_last s c : last (rstrip s) = Some c → isspace_char c = false.
Proof. unfold rstrip. rewrite last_reverse. apply lstrip_head. Qed.

Lemma rstrip_head s c :
  (∀ c, head s = Some c → isspace_char c = false) →
  head (rstrip s) = Some c → isspace_char c = false.
Proof.
  intros Hs. destruct (rstrip_suffix s) as (ws & Heq & Hws).
  destruct (rstrip s) as [|c' r]; [done|]. intros [= ->].
  apply Hs. by rewrite Heq.
Qed.

Lemma strip_trimmed s : trimmed (strip s).
Proof.
  split; intros c.
  - apply rstrip_head. apply lstrip_head.
  - apply rstrip_last.
Qed.

Lemma strip_fixed s : trimmed s → strip s = s.
Proof.
  intros [Hh Hl]. unfold strip, rstrip. rewrite (lstrip_fixed s Hh).
  rewrite lstrip_fixed; [apply reverse_involutive|].
  intros c. rewrite head_reverse. apply Hl.
Qed.

Lemma collapse_runs_trimmed s : trimmed s → trimmed (collapse_runs s).
Proof.
  intros [Hh Hl]. unfold collapse_runs. split; intros c.
  - rewrite collapse_runs_from_head. apply Hh.
  - destruct (last s) as [c0|] eqn:E.
    + rewrite (collapse_runs_from_last false s c0 E).
      * intros [= <-]. by apply Hl.
      * apply not_space_of_not_isspace. by apply Hl.
    + apply last_None in E as ->. done.
Qed.

Lemma normalize_trimmed s : trimmed (normalize s).
Proof. apply collapse_runs_trimmed, strip_trimmed. Qed.

Lemma normalize_no_double_space s : no_double_space (normalize s).
Proof. apply collapse_runs_from_no_double_space. Qed.

Lemma normalize_fixed s : trimmed s → no_double_space s → normalize s = s.
Proof.
  intros Ht Hd. unfold normalize. rewrite (strip_fixed s Ht).
  by apply collapse_runs_from_fixed.
Qed.

Lemma normalize_idempotent s : normalize (normalize s) = normalize s.
Proof.
  apply normalize_fixed; [apply normalize_trimmed|apply normalize_no_double_space].
Qed.

Lemma trimmed_no_edge_space s :
  trimmed s → head s ≠ Some space ∧ last s ≠ Some space.
Proof.
  intros [Hh Hl]. split; intros E; [apply Hh in E|apply Hl in E]; done.
Qed.


(** *** Every run of spaces becomes one space *)

Lemma collapse_runs_from_true_split s :
  ∃ n s', s = replicate n space ++ s' ∧ head s' ≠ Some space
          ∧ collapse_runs_from true s = collapse_runs_from false s'.
Proof.
  induction s as [|c r (n & s' & Hr & Hh & Hc)].
  - by exists 0%nat, [].
  - destruct (decide (c = space)) as [->|Hne].
    + exists (S n), s'. simpl. by rewrite <- Hr.
    + exists 0%nat, (c :: r). simpl. split_and!; [done|congruence|].
      by rewrite bool_decide_eq_false_2.
Qed.

Lemma collapse_runs_squeezes s : squeezes s (collapse_runs s).
Proof.
  unfold collapse_runs. remember (length s) as k eqn:Hk. revert s Hk.
  induction k as [k IH] using lt_wf_ind. intros s ->.
  destruct s as [|c r]; [constructor|]. simpl. case_bool_decide as Hc.
  - subst c.
    destruct (collapse_runs_from_true_split r) as (n & s' & -> & Hh & ->).
    apply (squeezes_run n); [done|]. apply (IH (length s')); [|done].
    simpl. rewrite length_app. lia.
  - constructor; [done|]. apply (IH (length r)); [simpl; lia|done].
Qed.

(** [strip] removes whitespace at both ends and nothing else: the string
    is what [strip] returns between a run of whitespace on either side, and
    what [strip] returns neither starts nor ends with whitespace. *)
Lemma strip_spec s :
  ∃ lead trail,
    s = lead ++ strip s ++ trail
    ∧ Forall (λ c, isspace_char c = true) lead
    ∧ Forall (λ c, isspace_char c = true) trail
    ∧ trimmed (strip s).
Proof.
  destruct (lstrip_prefix s) as (lead & Hl & Hlead).
  destruct (rstrip_suffix (lstrip s)) as (trail & Hr & Htrail).
  exists lead, trail. split_and!; [|done|done|apply strip_trimmed].
  unfold strip. by rewrite <- Hr.
Qed.

(** C4.  For every submitted string, the name [create_house] stores is the
    submitted string without the whitespace at its two ends, with each run
    of spaces collapsed to one space and every other character kept in
    order; it holds no two consecutive spaces, has no whitespace (so no
    space) at either end, and formatting it again changes nothing. *)
Theorem formatted_name_normal_form (name : str) :
  (∃ lead trail,
     name = lead ++ strip name ++ trail
     ∧ Forall (λ c, isspace_char c = true) lead
     ∧ Forall (λ c, isspace_char c = true) trail
     ∧ (∀ c, head (strip name) = Some c → isspace_char c = false)
     ∧ (∀ c, last (strip name) = Some c → isspace_char c = false))
  ∧ formatted_name name = normalize name
  ∧ squeezes (strip name) (formatted_name name)
  ∧ non_spaces (formatted_name name) = non_spaces (strip name)
  ∧ no_double_space (formatted_name name)
  ∧ trimmed (formatted_name name)
  ∧ head (formatted_name name) ≠ Some space
  ∧ last (formatted_name name) ≠ Some space
  ∧ formatted_name (formatted_name name) = formatted_name name.
Proof.
  rewrite !formatted_name_normalize.
  pose proof (normalize_trimmed name) as Ht.
  destruct (trimmed_no_edge_space _ Ht) as [Hh Hl].
  split_and!; try done.
  - destruct (strip_spec name) as (lead & trail & ? & ? & ? & ? & ?).
    by exists lead, trail.
  - apply collapse_runs_squeezes.
  - apply collapse_runs_from_non_spaces.
  - apply normalize_no_double_space.
  - apply normalize_idempotent.
Qed.

End formatting.

(** ** The pool discipline *)

Section pool.

Implicit Types (p : pool_state) (w : world) (c : conn).

Lemma filter_ne_fresh c (l : list conn) :
  c ∉ l → filter (λ x, x ≠ c) l = l.
Proof.
  induction l as [|x l IH]; [done|]. intros Hc.
  apply not_elem_of_cons in Hc as [Hx Hl].
  rewrite filter_cons_True by done. by rewrite IH.
Qed.

Lemma getconn_cases w :
  pool_wf (pool w) →
  match getconn w with
  | (Ok c, w1) =>
      (c ∉ used (pool w)) ∧ used (pool w1) = c :: used (pool w)
      ∧ committed w1 = committed w
  | (Raise _, w1) => pool w1 = pool w ∧ committed w1 = committed w
  end.
Proof.
  intros [Hnd Hlt]. rewrite Forall_forall in Hlt. unfold getconn.
  destruct (idle (pool w)) as [|c rest] eqn:Hi.
  - case_bool_decide; [done|].
    destruct (faults w) as [|[] fs]; simpl; try done.
    all: split_and!; try done.
    all: intros Hin; by apply (Nat.lt_irrefl (opened (pool w))), Hlt.
  - simpl. split_and!; try done. simpl in Hnd.
    apply NoDup_cons in Hnd as [Hc _]. intros Hin. apply Hc.
    apply elem_of_app. by right.
Qed.

Lemma recycle_used p : used (recycle p) = used p.
Proof. unfold recycle. by destruct (idle p). Qed.

Lemma recycle_maxconn p : maxconn (recycle p) = maxconn p.
Proof. unfold recycle. by destruct (idle p). Qed.

Lemma recycle_wf p : pool_wf p → pool_wf (recycle p).
Proof.
  intros [Hnd Hlt]. rewrite Forall_forall in Hlt.
  unfold recycle, pool_wf. setoid_rewrite Forall_forall.
  destruct (idle p) as [|c rest]; simpl in *.
  - case_bool_decide; simpl.
    + split.
      * apply NoDup_cons. split; [|done].
        intros Hin%Hlt. lia.
      * intros c [->|Hin%Hlt]%elem_of_cons; lia.
    + split; [done|]. intros c Hin%Hlt. lia.
  - case_bool_decide; simpl; [done|].
    apply NoDup_cons in Hnd as [_ Hnd]. split; [done|].
    intros c' Hin. apply Hlt. by right.
Qed.

(** What a [with get_db_connection()] block does to the pool when its body
    leaves the pool alone: the connection taken is put back, whatever the
    outcome of the body; when none could be taken the pool is untouched. *)
Lemma get_db_connection_pool {A} (body : conn → M A) w :
  (∀ c w0, pool (body c w0).2 = pool w0) →
  pool_wf (pool w) →
  pool (get_db_connection body w).2
  = match getconn w with
    | (Ok _, _) => recycle (pool w)
    | (Raise _, _) => pool w
    end.
Proof.
  intros Hbody [Hnd Hlt]. rewrite Forall_forall in Hlt.
  unfold get_db_connection, getconn, recycle.
  destruct (idle (pool w)) as [|c rest] eqn:Hi.
  - case_bool_decide; [done|].
    destruct (exchange (faults w)) as [[[]|e] fs]; [|done].
    unfold try_finally.
    match goal with |- context [body ?c ?w1] =>
      specialize (Hbody c w1); destruct (body c w1) as [r w2]
    end.
    simpl in Hbody. unfold putconn. rewrite Hbody. simpl.
    rewrite bool_decide_eq_true_2 by left. simpl.
    rewrite filter_cons_False by naive_solver.
    rewrite filter_ne_fresh; [done|].
    intros Hin%Hlt. lia.
  - unfold try_finally.
    match goal with |- context [body ?c ?w1] =>
      specialize (Hbody c w1); destruct (body c w1) as [r w2]
    end.
    simpl in Hbody. unfold putconn. rewrite Hbody. simpl.
    rewrite bool_decide_eq_true_2 by left. simpl.
    rewrite filter_cons_False by naive_solver.
    rewrite filter_ne_fresh; [done|].
    simpl in Hnd. apply NoDup_cons in Hnd as [Hc _].
    intros Hin. apply Hc, elem_of_app. by right.
Qed.

Lemma with_cursor_pool {A} (body : C A) w : pool (with_cursor body w).2 = pool w.
Proof. unfold with_cursor. by destruct (body _). Qed.

(** C6.  Whatever the body of a data-access operation does (return,
    return early, raise at any statement, fail at commit) and whatever
    exchanges with the server fail, the connection the operation acquired is
    back in the pool when the operation ends: the connections handed out are
    those handed out before, and the acquired one is not among them.  When
    no connection could be acquired there is none to return and the pool is
    as before. *)
Theorem get_db_cursor_returns_connection {A} (commit : bool) (body : C A)
  (w : world) :
  pool_wf (pool w) →
  let w' := (get_db_cursor commit body w).2 in
  used (pool w') = used (pool w)
  ∧ pool_wf (pool w')
  ∧ (∀ c w1, getconn w = (Ok c, w1) → c ∉ used (pool w'))
  ∧ (∀ e w1, getconn w = (Raise e, w1) → pool w' = pool w).
Proof.
  intros Hwf w'. subst w'. unfold get_db_cursor.
  rewrite get_db_connection_pool by (done || (intros; apply with_cursor_pool)).
  pose proof (getconn_cases w Hwf) as Hg.
  destruct (getconn w) as [[c|e] w1].
  - destruct Hg as (Hfresh & _). rewrite recycle_used.
    split_and!; [done|by apply recycle_wf|congruence|congruence].
  - split_and!; [done|done|congruence|done].
Qed.


Lemma fresh_pool_wf : pool_wf fresh_pool.
Proof.
  unfold pool_wf. simpl. split; [apply NoDup_singleton|].
  by repeat constructor.
Qed.

Lemma get_db_cursor_returns_connection_witness :
  pool_wf fresh_pool
  ∧ (get_db_cursor false (execute sql_select_houses [];; fetchall)
       (world_of maple_store [true])).1 = Raise OperationalError
  ∧ used (pool (get_db_cursor false (execute sql_select_houses [];; fetchall)
                  (world_of maple_store [true])).2) = [].
Proof.
  split; [exact fresh_pool_wf|]. split; [reflexivity|].
  apply (get_db_cursor_returns_connection false
           (execute sql_select_houses [];; fetchall)
           (world_of maple_store [true]) fresh_pool_wf).
Defined.

(** With every connection handed out, [pool.getconn()] raises, the
    [finally] clause finds no [connection] to return and raises in turn, and
    the pool is left as it was. *)
Example get_db_cursor_exhausted_pool :
  let p := {| minconn := 1; maxconn := 1; dsn := lit "postgresql://roomhub";
              sslmode := lit "require"; idle := []; used := [0];
              opened := 1 |} in
  let w := {| pool := p; committed := maple_store; faults := [] |} in
  get_houses w = (Raise UnboundLocalError, w).
Proof. reflexivity. Qed.

(** In a serving world the operation is its cursor block run on the
    committed store, with the pool recycled around it. *)
Lemma get_db_cursor_serving {A} (commit : bool) (body : C A) w :
  serving w →
  get_db_cursor commit body w
  = let '(r, s1) :=
      try_finally
        (x ← body;
         (if commit then connection_commit else mret ());;
         mret x)
        cursor_close (session_of w) in
    (r, {| pool := recycle (pool w);
           committed := with_sequences_of (txn s1) (durable s1);
           faults := wire s1 |}).
Proof.
  intros ([Hnd Hlt] & Hmax & Hf & _). rewrite Forall_forall in Hlt.
  unfold get_db_cursor, get_db_connection, getconn, recycle, session_of.
  destruct w as [p d fs]. simpl in *. subst fs.
  destruct (idle p) as [|c rest] eqn:Hi.
  - rewrite bool_decide_eq_false_2 by lia. simpl.
    unfold try_finally at 1, with_cursor. simpl.
    match goal with |- context [try_finally ?b ?c ?s] =>
      destruct (try_finally b c s) as [r s1]
    end.
    unfold putconn. simpl. rewrite bool_decide_eq_true_2 by left. simpl.
    rewrite filter_cons_False by naive_solver.
    rewrite filter_ne_fresh; [done|].
    intros Hin%Hlt. lia.
  - unfold try_finally at 1, with_cursor. simpl.
    match goal with |- context [try_finally ?b ?c ?s] =>
      destruct (try_finally b c s) as [r s1]
    end.
    unfold putconn. simpl. rewrite bool_decide_eq_true_2 by left. simpl.
    rewrite filter_cons_False by naive_solver.
    rewrite filter_ne_fresh; [done|].
    simpl in Hnd. apply NoDup_cons in Hnd as [Hc _].
    intros Hin. apply Hc, elem_of_app. by right.
Qed.

Lemma serving_next w d : serving w → consistent d → serving (next w d).
Proof.
  intros (Hwf & Hmax & _) Hd. unfold serving, next. simpl.
  rewrite recycle_used, recycle_maxconn. split_and!; [|done..].
  by apply recycle_wf.
Qed.

Lemma serving_consistent w : serving w → consistent (committed w).
Proof. by intros (_ & _ & _ & Hd). Qed.

Lemma serving_same w : serving w → serving (next w (committed w)).
Proof. intros Hw. apply serving_next; [done|by apply serving_consistent]. Qed.

Lemma with_sequences_of_same d : with_sequences_of d d = d.
Proof. by destruct d. Qed.

Lemma with_sequences_of_unchanged seqs d :
  users_id_seq seqs = users_id_seq d →
  houses_house_id_seq seqs = houses_house_id_seq d →
  tasks_task_id_seq seqs = tasks_task_id_seq d →
  with_sequences_of seqs d = d.
Proof. destruct d. unfold with_sequences_of. simpl. by intros -> -> ->. Qed.

Lemma with_sequences_of_tables seqs d :
  tables (with_sequences_of seqs d) = tables d.
Proof. done. Qed.

End pool.

(** ** The operations in a serving world *)

Section operations.

Implicit Types (w : world) (d : DB) (st : statement).

(** *** Parameters the driver accepts *)

Lemma sendable_checks s :
  sendable s → existsb surrogate s = false ∧ bool_decide (0%N ∈ s) = false.
Proof.
  intros Hs. split.
  - induction Hs as [|c r [_ Hc] _ IH]; [done|]. simpl. by rewrite Hc, IH.
  - apply bool_decide_eq_false_2. intros Hin.
    unfold sendable in Hs. rewrite Forall_forall in Hs.
    by destruct (Hs _ Hin).
Qed.

Lemma adapt_sendable s : sendable s → adapt (VStr s) = Ok ().
Proof.
  intros [H1 H2]%sendable_checks. unfold adapt. by rewrite H1, H2.
Qed.

Lemma adapt_nul s :
  existsb surrogate s = false → 0%N ∈ s → adapt (VStr s) = Raise ValueError.
Proof. intros Hs Hin. unfold adapt. by rewrite Hs, bool_decide_eq_true_2. Qed.

Lemma mogrify_str s : sendable s → mogrify [VStr s] = Ok ().
Proof. intros Hs. unfold mogrify. by rewrite adapt_sendable. Qed.

Lemma sendable_app s t : sendable (s ++ t) ↔ sendable s ∧ sendable t.
Proof. apply Forall_app. Qed.

Lemma sendable_strip s : sendable s → sendable (strip s).
Proof.
  destruct (strip_spec s) as (lead & trail & Hs & _). intros H.
  rewrite Hs in H. by apply sendable_app in H as [_ [H _]%sendable_app].
Qed.

Lemma sendable_collapse_runs_from b s :
  sendable s → sendable (collapse_runs_from b s).
Proof.
  intros Hs. revert b.
  induction Hs as [|c r Hc _ IH]; intros b; [constructor|].
  simpl. case_bool_decide as Hsp; [destruct b|]; [apply IH|subst c|].
  all: constructor; [done|apply IH].
Qed.

Lemma sendable_formatted_name s : sendable s → sendable (formatted_name s).
Proof.
  intros Hs. rewrite formatted_name_normalize.
  by apply sendable_collapse_runs_from, sendable_strip.
Qed.

(** *** Foreign keys *)

Lemma Forall_filter_keep {A} (P Q : A → Prop) `{∀ x, Decision (P x)}
  (l : list A) :
  Forall Q l → Forall Q (filter P l).
Proof.
  rewrite !Forall_forall. intros HQ x [_ Hx]%list_elem_of_filter. by apply HQ.
Qed.

Lemma consistent_tables d d' : tables d = tables d' → consistent d → consistent d'.
Proof.
  unfold tables, consistent, has_user, has_house.
  by intros [= -> -> -> -> ->].
Qed.

Lemma consistent_delete_tasks (P : task_row → Prop) `{∀ t, Decision (P t)} d :
  consistent d → consistent (set_tasks (filter P) d).
Proof.
  intros (Hm & Ht & Hr). split_and!; [done| |done].
  by apply Forall_filter_keep.
Qed.

Lemma consistent_delete_restrictions (P : restriction_row → Prop)
  `{∀ r, Decision (P r)} d :
  consistent d → consistent (set_restrictions (filter P) d).
Proof.
  intros (Hm & Ht & Hr). split_and!; [done|done|].
  by apply Forall_filter_keep.
Qed.

Lemma consistent_delete_user_houses (P : membership_row → Prop)
  `{∀ m, Decision (P m)} d :
  consistent d → consistent (set_user_houses (filter P) d).
Proof.
  intros (Hm & Ht & Hr). split_and!; [|done|done].
  by apply Forall_filter_keep.
Qed.



Lemma consistent_insert_user_house user_id house_id d :
  consistent d → has_user user_id d → has_house house_id d →
  consistent
    (set_user_houses
       (λ ms, ms ++ [{| m_user_id := user_id; m_house_id := house_id |}]) d).
Proof.
  intros (Hm & Ht & Hr) Hu Hh. split_and!; [|done|done]. simpl.
  apply Forall_app. split; [done|]. by repeat constructor.
Qed.



Lemma membership_parents user_id house_id d :
  consistent d →
  {| m_user_id := user_id; m_house_id := house_id |} ∈ user_houses d →
  has_user user_id d ∧ has_house house_id d.
Proof.
  intros (Hm & _) Hin. rewrite Forall_forall in Hm. by apply (Hm _ Hin).
Qed.

(** *** One statement in a cursor block *)

(** Evaluate the cursor block of an operation served by [w]. *)
Ltac run_cursor Hw :=
  rewrite get_db_cursor_serving by exact Hw;
  unfold session_of, try_finally, execute, fetchone, fetchall,
    connection_commit, cursor_close, lift_result;
  rewrite (proj1 (proj2 (proj2 Hw)));
  unfold mbind, mret, SE_bind, SE_ret; simpl.

Lemma cursor_fetchone (q : DB → list row) params w :
  serving w → mogrify params = Ok () →
  get_db_cursor false (execute (query q) params;; fetchone) w
  = (Ok (head (q (committed w))), next w (committed w)).
Proof.
  intros Hw Hp. run_cursor Hw. rewrite Hp. simpl.
  destruct (q (committed w)) as [|r rows]; simpl;
    by rewrite with_sequences_of_same.
Qed.

Lemma cursor_fetchall (q : DB → list row) params w :
  serving w → mogrify params = Ok () →
  get_db_cursor false (execute (query q) params;; fetchall) w
  = (Ok (q (committed w)), next w (committed w)).
Proof.
  intros Hw Hp. run_cursor Hw. rewrite Hp. simpl.
  by rewrite with_sequences_of_same.
Qed.

Lemma cursor_execute_commit st params w rows d' :
  serving w → mogrify params = Ok () → st (committed w) = (Ok rows, d') →
  get_db_cursor true (execute st params) w = (Ok (), next w d').
Proof.
  intros Hw Hp Hst. run_cursor Hw. rewrite Hp, Hst. simpl.
  by rewrite with_sequences_of_same.
Qed.

(** A statement the server refuses ends the block: nothing is committed,
    and only the sequence values drawn are lost. *)
Lemma cursor_execute_refused st params w e d' :
  serving w → mogrify params = Ok () → st (committed w) = (Raise e, d') →
  get_db_cursor true (execute st params) w
  = (Raise e, next w (with_sequences_of d' (committed w))).
Proof. intros Hw Hp Hst. run_cursor Hw. by rewrite Hp, Hst. Qed.

(** A parameter the driver rejects ends the block before anything is
    sent. *)
Lemma cursor_execute_rejected {A} st params (rest : C A) commit w e :
  serving w → mogrify params = Raise e →
  get_db_cursor commit (execute st params;; rest) w
  = (Raise e, next w (committed w)).
Proof.
  intros Hw Hp. run_cursor Hw. rewrite Hp. simpl.
  by rewrite with_sequences_of_same.
Qed.

Lemma constrained_allowed (allowed : DB → Prop) `{∀ d, Decision (allowed d)}
  st d :
  allowed d → constrained allowed st d = st d.
Proof. intros Ha. unfold constrained. by rewrite decide_True. Qed.

Lemma constrained_refused (allowed : DB → Prop) `{∀ d, Decision (allowed d)}
  st d :
  ¬ allowed d → constrained allowed st d = (Raise IntegrityError, d).
Proof. intros Ha. unfold constrained. by rewrite decide_False. Qed.

(** *** The operations, one by one *)

Lemma check_house_exists_serving house_name w :
  serving w → sendable house_name →
  check_house_exists house_name w
  = (Ok (head (house_cols <$>
                 filter (λ h, h_house_name h = house_name)
                   (houses (committed w)))),
     next w (committed w)).
Proof.
  intros Hw Hs. unfold check_house_exists, sql_select_house_by_name.
  by rewrite cursor_fetchone by (done || by apply mogrify_str).
Qed.

Lemma add_user_house_serving user_id house_id w :
  serving w →
  has_user user_id (committed w) → has_house house_id (committed w) →
  add_user_house user_id house_id w
  = (Ok (),
     next w (set_user_houses
               (λ ms, ms ++ [{| m_user_id := user_id;
                                m_house_id := house_id |}])
               (committed w))).
Proof.
  intros Hw Hu Hh. unfold add_user_house.
  erewrite cursor_execute_commit; [done..|].
  unfold sql_insert_user_house. by rewrite constrained_allowed.
Qed.

Lemma delete_tasks_by_house_serving house_id w :
  serving w →
  delete_tasks_by_house house_id w
  = (Ok (), next w (set_tasks (filter (λ t, t_house_id t ≠ house_id))
                      (committed w))).
Proof. intros Hw. by apply cursor_execute_commit with (rows := []). Qed.

Lemma delete_restrictions_by_house_serving house_id w :
  serving w →
  delete_restrictions_by_house house_id w
  = (Ok (), next w (set_restrictions (filter (λ r, r_house_id r ≠ house_id))
                      (committed w))).
Proof. intros Hw. by apply cursor_execute_commit with (rows := []). Qed.

Lemma delete_house_serving house_id w :
  serving w →
  (has_house house_id (committed w) → unreferenced house_id (committed w)) →
  delete_house house_id w
  = (Ok (), next w (set_houses (filter (λ h, h_house_id h ≠ house_id))
                      (committed w))).
Proof.
  intros Hw Ha. unfold delete_house.
  erewrite cursor_execute_commit; [done..|].
  unfold sql_delete_house. by rewrite constrained_allowed.
Qed.

(** The store refuses to delete a house that a membership, a task or a
    restriction points to, and the operation raises. *)
Lemma delete_house_refused house_id w :
  serving w →
  has_house house_id (committed w) → ¬ unreferenced house_id (committed w) →
  delete_house house_id w = (Raise IntegrityError, next w (committed w)).
Proof.
  intros Hw Hh Hr. unfold delete_house.
  erewrite cursor_execute_refused; [|done..|].
  - by rewrite with_sequences_of_same.
  - unfold sql_delete_house. rewrite constrained_refused; [done|]. tauto.
Qed.

Lemma is_last_member_serving house_id w :
  serving w →
  is_last_member house_id w
  = (Ok (bool_decide (length (memberships_of house_id (committed w)) = 1)),
     next w (committed w)).
Proof.
  intros Hw. unfold is_last_member. run_cursor Hw.
  rewrite with_sequences_of_same.
  unfold eq_int, memberships_of. do 2 f_equal.
  apply bool_decide_ext. split.
  - intros [= H]. lia.
  - intros ->. done.
Qed.

(** [leave_house] in a serving world: the rows of the user in the house go;
    when none of the house is left the house goes too, unless something
    still points to it, in which case nothing is changed at all. *)
Lemma leave_house_serving user_id house_id w :
  serving w →
  leave_house user_id house_id w
  = (let d :=
       set_user_houses
         (filter (λ m, ¬ (m_user_id m = user_id ∧ m_house_id m = house_id)))
         (committed w) in
     if decide (memberships_of house_id d = [])
     then
       if decide (has_house house_id d → unreferenced house_id d)
       then (Ok (), next w (set_houses
                              (filter (λ h, h_house_id h ≠ house_id)) d))
       else (Raise IntegrityError, next w (committed w))
     else (Ok (), next w d)).
Proof.
  intros Hw. unfold leave_house. run_cursor Hw.
  unfold eq_int, memberships_of. simpl.
  set (ms := filter _ (filter _ _)).
  destruct ms as [|m ms'].
  - rewrite decide_True by done. simpl.
    unfold sql_delete_house, constrained.
    match goal with |- context [decide ?P] => destruct (decide P) end.
    + simpl. by rewrite with_sequences_of_same.
    + simpl. by rewrite with_sequences_of_unchanged.
  - rewrite decide_False by done. simpl.
    by rewrite with_sequences_of_same.
Qed.

Lemma create_house_serving house_name creator_id w :
  serving w → sendable house_name → has_user creator_id (committed w) →
  create_house house_name creator_id w
  = (Ok (),
     next w
       (set_user_houses
          (λ ms, ms ++ [{| m_user_id := creator_id;
                           m_house_id := houses_house_id_seq (committed w) |}])
          (bump_houses_house_id_seq
             (set_houses
                (λ hs, hs ++ [{| h_house_id := houses_house_id_seq (committed w);
                                 h_house_name := formatted_name house_name |}])
                (committed w))))).
Proof.
  intros Hw Hs Hu. unfold create_house. run_cursor Hw.
  destruct (sendable_checks _ (sendable_formatted_name _ Hs)) as [-> ->].
  simpl. unfold sql_insert_user_house. rewrite constrained_allowed.
  - simpl. by rewrite with_sequences_of_same.
  - split; [done|]. unfold has_house. simpl.
    rewrite fmap_app, elem_of_app. right. by left.
Qed.

Lemma get_tasks_by_house_id_serving house_id w :
  serving w →
  get_tasks_by_house_id house_id w
  = (Ok (task_cols <$> filter (λ t, t_house_id t = house_id)
                         (tasks (committed w))),
     next w (committed w)).
Proof.
  intros Hw. unfold get_tasks_by_house_id. run_cursor Hw.
  by rewrite with_sequences_of_same.
Qed.

Lemma get_restrictions_serving house_id w :
  serving w →
  get_restrictions house_id w
  = (Ok (restriction_cols <$> filter (λ r, r_house_id r = house_id)
                                (restrictions (committed w))),
     next w (committed w)).
Proof. intros Hw. by apply cursor_fetchall. Qed.


(** *** Rows of the statements *)

Lemma filter_absent {A} (P : A → Prop) `{∀ x, Decision (P x)} (l : list A) :
  Forall (λ x, ¬ P x) l → filter P l = [].
Proof.
  induction 1 as [|x l Hx _ IH]; [done|].
  by rewrite filter_cons_False.
Qed.

Lemma filter_nil_absent {A} (P : A → Prop) `{∀ x, Decision (P x)}
  (l : list A) :
  filter P l = [] → Forall (λ x, ¬ P x) l.
Proof.
  intros Hf. apply Forall_forall. intros x Hx HP.
  by apply (filter_nil_not_elem_of P l x).
Qed.

Lemma inner_join_cons {A B K} `{EqDecision K} (ka : A → K) (kb : B → K)
  a (l : list A) (r : list B) :
  inner_join ka kb (a :: l) r
  = ((a,.) <$> filter (λ b, ka a = kb b) r) ++ inner_join ka kb l r.
Proof.
  unfold inner_join. rewrite bind_cons. f_equal.
Qed.

Lemma member_rows house_id d :
  (sql_select_member_usernames house_id d).1
  = Ok ((λ v, [v]) <$> member_names house_id d).
Proof.
  unfold sql_select_member_usernames, query, member_names,
    memberships_of_user. simpl. f_equal.
  induction (users d) as [|u us IH]; [done|].
  rewrite inner_join_cons, filter_app, fmap_app, bind_cons, fmap_app.
  f_equal; [|done]. clear IH.
  induction (user_houses d) as [|m ms IH]; [done|].
  destruct (decide (u_id u = m_user_id m)) as [Hu|Hu].
  - rewrite (filter_cons_True _ m) by done. rewrite fmap_cons.
    destruct (decide (m_house_id m = house_id)) as [Hh|Hh].
    + rewrite filter_cons_True by done.
      rewrite (filter_cons_True _ m) by done.
      rewrite !fmap_cons. simpl. by f_equal.
    + rewrite filter_cons_False by done.
      rewrite (filter_cons_False _ m) by (intros [? ?]; congruence). done.
  - rewrite (filter_cons_False _ m) by done.
    rewrite (filter_cons_False _ m) by (intros [? ?]; congruence). done.
Qed.

Lemma member_id_rows_absent house_id d :
  Forall (λ m, m_house_id m ≠ house_id) (user_houses d) →
  (sql_select_member_ids house_id d).1 = Ok [].
Proof.
  intros Hm. unfold sql_select_member_ids, query. simpl. f_equal.
  induction (users d) as [|u us IH]; [done|].
  rewrite inner_join_cons, filter_app, fmap_app, IH, app_nil_r.
  rewrite filter_absent; [done|].
  apply Forall_fmap, Forall_forall. intros m [_ Hin]%list_elem_of_filter.
  rewrite Forall_forall in Hm. by apply Hm.
Qed.

Lemma member_names_absent house_id d :
  Forall (λ m, m_house_id m ≠ house_id) (user_houses d) →
  member_names house_id d = [].
Proof.
  intros Hm. unfold member_names, memberships_of_user.
  induction (users d) as [|u us IH]; [done|].
  rewrite bind_cons, IH, app_nil_r, filter_absent; [done|].
  eapply Forall_impl; [exact Hm|]. simpl. tauto.
Qed.

Lemma comprehension_first_column (vs : list val) :
  comprehension (λ member, getitem (Some member) 0) ((λ v, [v]) <$> vs)
  = Ok vs.
Proof.
  induction vs as [|v vs IH]; [done|].
  rewrite fmap_cons. cbn [comprehension]. by rewrite IH.
Qed.

Lemma get_house_members_serving house_id w :
  serving w →
  get_house_members house_id w
  = (Ok (match member_names house_id (committed w) with
         | [] => NO_MEMBERS
         | names => names
         end),
     next w (committed w)).
Proof.
  intros Hw. unfold get_house_members. run_cursor Hw.
  pose proof (member_rows house_id (committed w)) as Hrows.
  unfold sql_select_member_usernames, query in Hrows. simpl in Hrows.
  injection Hrows as Hrows. rewrite Hrows.
  destruct (member_names house_id (committed w)) as [|v vs]; simpl.
  - by rewrite with_sequences_of_same.
  - rewrite comprehension_first_column. simpl.
    by rewrite with_sequences_of_same.
Qed.

Lemma left_join_fst {A B K} `{EqDecision K} (ka : A → K) (kb : B → K)
  (l : list A) (r : list B) (x : A * option B) :
  x ∈ left_join ka kb l r → x.1 ∈ l.
Proof.
  unfold left_join. intros (a & Hx & Ha)%list_elem_of_bind.
  destruct (filter _ r) as [|b bs].
  - apply list_elem_of_singleton in Hx as ->. done.
  - apply list_elem_of_fmap in Hx as (b' & -> & _). done.
Qed.

Lemma check_user_exists_serving email w :
  serving w → sendable email →
  check_user_exists email w
  = (Ok (head ((λ u, [VStr (u_username u)])
               <$> filter (λ u, u_email u = email) (users (committed w)))),
     next w (committed w)).
Proof.
  intros Hw Hs. unfold check_user_exists, sql_select_username_by_email.
  by rewrite cursor_fetchone by (done || by apply mogrify_str).
Qed.

Lemma get_user_id_serving email w :
  serving w → sendable email →
  get_user_id email w
  = (Ok (head ((λ u, [VInt (u_id u)])
               <$> filter (λ u, u_email u = email) (users (committed w)))),
     next w (committed w)).
Proof.
  intros Hw Hs. unfold get_user_id, sql_select_user_id_by_email.
  by rewrite cursor_fetchone by (done || by apply mogrify_str).
Qed.

Lemma get_user_by_id_serving user_id w :
  serving w →
  get_user_by_id user_id w
  = (Ok (head ((λ u, [VStr (u_username u)])
               <$> filter (λ u, u_id u = user_id) (users (committed w)))),
     next w (committed w)).
Proof.
  intros Hw. unfold get_user_by_id. run_cursor Hw.
  by destruct (filter _ _); simpl; rewrite with_sequences_of_same.
Qed.

Lemma get_house_name_by_id_serving house_id w :
  serving w →
  get_house_name_by_id house_id w
  = (Ok (head ((λ h, VStr (h_house_name h))
               <$> filter (λ h, h_house_id h = house_id)
                     (houses (committed w)))),
     next w (committed w)).
Proof.
  intros Hw. unfold get_house_name_by_id. run_cursor Hw.
  by destruct (filter _ _); simpl; rewrite with_sequences_of_same.
Qed.

Lemma get_user_houses_serving user_id w :
  serving w →
  get_user_houses user_id w
  = ((sql_select_user_houses user_id (committed w)).1, next w (committed w)).
Proof. intros Hw. by apply cursor_fetchall. Qed.

Lemma get_houses_serving w :
  serving w →
  get_houses w
  = (Ok ((λ h, [VStr (h_house_name h); VInt (h_house_id h)])
         <$> houses (committed w)),
     next w (committed w)).
Proof. intros Hw. by apply cursor_fetchall. Qed.

Lemma get_houses_to_join_serving distinct user_id w :
  serving w →
  get_houses_to_join distinct user_id w
  = ((sql_select_houses_to_join distinct user_id (committed w)).1,
     next w (committed w)).
Proof. intros Hw. by apply cursor_fetchall. Qed.

Lemma get_member_id_dict_serving house_id w :
  serving w →
  get_member_id_dict house_id w
  = ((sql_select_member_ids house_id (committed w)).1 ≫= member_dict,
     next w (committed w)).
Proof.
  intros Hw. unfold get_member_id_dict. run_cursor Hw.
  by destruct (member_dict _); rewrite with_sequences_of_same.
Qed.

Lemma get_tasks_with_due_dates_serving {T} (format_task : row → result T)
  house_id w :
  serving w →
  get_tasks_with_due_dates format_task house_id w
  = (comprehension format_task
       (task_cols <$> filter (λ t, t_house_id t = house_id)
                        (tasks (committed w))),
     next w (committed w)).
Proof.
  intros Hw. unfold get_tasks_with_due_dates, mbind, SE_bind.
  by rewrite get_tasks_by_house_id_serving.
Qed.

(** Dropping the later copies of a row is one way to do the [DISTINCT]
    step. *)
Lemma remove_dups_distinct_step : distinct_step remove_dups.
Proof.
  intros rows. split; [apply NoDup_remove_dups|].
  intros r. apply elem_of_remove_dups.
Qed.

(** For a user who holds no membership, every house is offered, whatever
    order the server's [DISTINCT] step hands the rows out in. *)
Lemma houses_to_join_unknown_user (distinct : list row → list row)
  user_id d (r : row) :
  distinct_step distinct →
  Forall (λ m, m_user_id m ≠ user_id) (user_houses d) →
  (∃ rows, (sql_select_houses_to_join distinct user_id d).1 = Ok rows
           ∧ (r ∈ rows
              ↔ ∃ h, h ∈ houses d
                     ∧ r = [VStr (h_house_name h); VInt (h_house_id h)])).
Proof.
  intros Hdistinct Hu. unfold sql_select_houses_to_join, query. simpl.
  eexists. split; [done|].
  rewrite (filter_absent (λ m, m_user_id m = user_id)) by done.
  rewrite (proj2 (Hdistinct _)), list_elem_of_fmap. split.
  - intros ([h m] & -> & [_ Hin]%list_elem_of_filter).
    apply left_join_fst in Hin. by exists h.
  - intros (h & Hh & ->). unfold left_join.
    destruct (filter (λ m, h_house_id h = m_house_id m) (user_houses d))
      as [|m ms] eqn:E.
    + exists (h, None). split; [done|].
      apply list_elem_of_filter. split; [simpl; set_solver|].
      apply list_elem_of_bind. exists h. rewrite E. split; [|done].
      by apply list_elem_of_singleton.
    + exists (h, Some m). split; [done|].
      apply list_elem_of_filter. split; [simpl; set_solver|].
      apply list_elem_of_bind. exists h. rewrite E. split; [|done].
      rewrite fmap_cons. by left.
Qed.

(** *** The running examples *)

Lemma serving_world_of d : consistent d → serving (world_of d []).
Proof.
  intros Hd. unfold serving, pool_wf. simpl. split_and!; [|..|lia|done|done].
  - apply NoDup_singleton.
  - by repeat constructor.
Qed.

Lemma empty_store_consistent : consistent empty_store.
Proof. by repeat constructor. Qed.

Lemma has_user_1_alice d : users d = [alice] → has_user 1 d.
Proof. unfold has_user. intros ->. by left. Qed.

Lemma has_house_1_maple d : houses d = [maple_st] → has_house 1 d.
Proof. unfold has_house. intros ->. by left. Qed.

Lemma maple_store_consistent : consistent maple_store.
Proof.
  unfold consistent. simpl.
  by repeat first [constructor | apply has_user_1_alice
                  | apply has_house_1_maple].
Qed.

Lemma placeholder_store_consistent : consistent placeholder_store.
Proof.
  unfold consistent, has_user, has_house. simpl.
  repeat constructor; by left.
Qed.

Lemma shared_store_consistent : consistent shared_store.
Proof.
  unfold consistent, has_user, has_house. simpl.
  repeat constructor; try by left. all: by right; left.
Qed.


(** *** Reads of keys the store does not hold *)

(** A string key that holds a NUL character never reaches the server: the
    driver raises while it renders the parameter, for a key the store holds
    as for one it does not. *)
Lemma reads_reject_nul_keys (key : str) w :
  serving w → existsb surrogate key = false → 0%N ∈ key →
  check_user_exists key w = (Raise ValueError, next w (committed w))
  ∧ get_user_id key w = (Raise ValueError, next w (committed w))
  ∧ check_house_exists key w = (Raise ValueError, next w (committed w)).
Proof.
  intros Hw Hs Hin.
  assert (mogrify [VStr key] = Raise ValueError) as Hp.
  { unfold mogrify. by rewrite adapt_nul. }
  split_and!; by apply cursor_execute_rejected.
Qed.

(** C8, as the claim states it, fails for a key the driver does not send:
    no house is called "a\0b" (the code points 97, 0, 98), and
    [check_house_exists] raises [ValueError] on that name instead of
    returning [None]; so do [check_user_exists] and [get_user_id] on an
    unknown email that holds a NUL character. *)
Lemma check_house_exists_nul_name :
  serving (world_of maple_store [])
  ∧ house_name_absent [97; 0; 98]%N maple_store
  ∧ email_absent [97; 0; 98]%N maple_store
  ∧ check_house_exists [97; 0; 98]%N (world_of maple_store [])
    = (Raise ValueError, world_of maple_store [])
  ∧ check_user_exists [97; 0; 98]%N (world_of maple_store [])
    = (Raise ValueError, world_of maple_store [])
  ∧ get_user_id [97; 0; 98]%N (world_of maple_store [])
    = (Raise ValueError, world_of maple_store []).
Proof.
  split; [apply serving_world_of, maple_store_consistent|].
  split; [by repeat constructor|]. split; [by repeat constructor|].
  by vm_compute.
Qed.

(** The placeholder of [get_house_members] is what a house id that occurs
    nowhere in the store yields. *)
Example get_house_members_unknown_house :
  house_id_absent 7 empty_store
  ∧ (get_house_members 7 (world_of empty_store [])).1
    = Ok [VStr (lit "No members")].
Proof. split; [by repeat constructor|]. by vm_compute. Qed.

(** C8, amended.  In a serving world no read raises on a key the store does
    not hold, provided the driver can send the key (a string key holds no
    NUL character and no lone surrogate), and the store is left as it was:
    lookups of one row return [None], listings return the empty list or the
    empty dict, [get_house_members] returns its placeholder ["No members"]
    and [is_last_member] returns [False]. *)
Theorem reads_of_unknown_keys (w : world) :
  serving w →
  let d := committed w in
  let w' := next w d in
  (∀ email, sendable email → email_absent email d →
     check_user_exists email w = (Ok None, w')
     ∧ get_user_id email w = (Ok None, w'))
  ∧ (∀ house_name, sendable house_name → house_name_absent house_name d →
       check_house_exists house_name w = (Ok None, w'))
  ∧ (∀ house_id, house_id_absent house_id d →
       get_house_name_by_id house_id w = (Ok None, w')
       ∧ get_tasks_by_house_id house_id w = (Ok [], w')
       ∧ (∀ T (format_task : row → result T),
            get_tasks_with_due_dates format_task house_id w = (Ok [], w'))
       ∧ get_restrictions house_id w = (Ok [], w')
       ∧ get_member_id_dict house_id w = (Ok ∅, w')
       ∧ get_house_members house_id w = (Ok NO_MEMBERS, w')
       ∧ is_last_member house_id w = (Ok false, w'))
  ∧ (∀ user_id, user_id_absent user_id d →
       get_user_by_id user_id w = (Ok None, w')
       ∧ get_user_houses user_id w = (Ok [], w')).
Proof.
  intros Hw d w'. subst d w'. split_and!.
  - intros email Hs He. unfold email_absent in He.
    rewrite check_user_exists_serving, get_user_id_serving by done.
    by rewrite filter_absent.
  - intros house_name Hs Hn. unfold house_name_absent in Hn.
    rewrite check_house_exists_serving by done.
    by rewrite filter_absent.
  - intros house_id (Hh & Hm & Ht & Hr).
    rewrite get_house_name_by_id_serving, get_tasks_by_house_id_serving,
      get_restrictions_serving, get_member_id_dict_serving,
      get_house_members_serving, is_last_member_serving by done.
    rewrite member_id_rows_absent, member_names_absent by done.
    unfold memberships_of.
    rewrite !filter_absent
      by (done || (eapply Forall_impl; [eassumption|]; simpl; tauto)).
    split_and!; try done.
    intros T format_task.
    rewrite get_tasks_with_due_dates_serving by done.
    by rewrite filter_absent
      by (eapply Forall_impl; [eassumption|]; simpl; tauto).
  - intros user_id (Hu & Hm & _).
    rewrite get_user_by_id_serving, get_user_houses_serving by done.
    rewrite filter_absent
      by (eapply Forall_impl; [eassumption|]; simpl; tauto).
    split; [done|]. do 2 f_equal.
    unfold sql_select_user_houses, query. simpl.
    rewrite filter_absent; [done|].
    apply Forall_forall. intros x Hx%left_join_fst.
    rewrite Forall_forall in Hm. by apply Hm.
Qed.

Lemma bob_email_sendable : sendable (lit "bob@x.com").
Proof. unfold sendable. by repeat constructor. Qed.

Lemma reads_of_unknown_keys_witness :
  serving (world_of maple_store [])
  ∧ sendable (lit "bob@x.com")
  ∧ check_user_exists (lit "bob@x.com") (world_of maple_store [])
    = (Ok None, next (world_of maple_store []) maple_store).
Proof.
  split; [exact (serving_world_of _ maple_store_consistent)|].
  split; [exact bob_email_sendable|].
  apply (reads_of_unknown_keys (world_of maple_store [])
           (serving_world_of _ maple_store_consistent)).
  - exact bob_email_sendable.
  - unfold email_absent. simpl. by repeat constructor.
Defined.


(** *** Members of a house *)

Lemma member_names_nonempty house_id d u m :
  u ∈ users d → m ∈ memberships_of house_id d → u_id u = m_user_id m →
  member_names house_id d ≠ [].
Proof.
  intros Hu [Hh Hm]%list_elem_of_filter Hid Hnil.
  assert (VStr (u_username u) ∈ member_names house_id d) as Hin.
  { unfold member_names. apply list_elem_of_bind. exists u. split; [|done].
    apply list_elem_of_fmap. exists m. split; [done|].
    apply list_elem_of_filter. by rewrite Hid. }
  rewrite Hnil in Hin. by apply not_elem_of_nil in Hin.
Qed.

(** C5, as the claim states it, fails: a house whose one member carries the
    nickname "No members" has a membership row, and [get_house_members]
    returns a list equal to the placeholder. *)
Lemma get_house_members_placeholder_nickname :
  serving (world_of placeholder_store [])
  ∧ memberships_of 7 placeholder_store
    = [{| m_user_id := 1; m_house_id := 7 |}]
  ∧ member_names 7 placeholder_store = [VStr (lit "No members")]
  ∧ (get_house_members 7 (world_of placeholder_store [])).1 = Ok NO_MEMBERS.
Proof.
  split; [apply serving_world_of, placeholder_store_consistent|].
  by vm_compute.
Qed.

(** C5, amended.  On a house without membership rows [get_house_members]
    returns exactly ["No members"].  On a house with a membership row
    whose user has a user row it returns the usernames of the members, one
    entry for every pair of a user row and a membership row of that user: a
    non-empty list, which differs from the placeholder whenever no listed
    member is called "No members". *)
Theorem get_house_members_result (house_id : Z) (w : world) :
  serving w →
  let d := committed w in
  (memberships_of house_id d = [] →
     get_house_members house_id w = (Ok NO_MEMBERS, next w d))
  ∧ (∀ u m, u ∈ users d → m ∈ memberships_of house_id d →
            u_id u = m_user_id m →
       get_house_members house_id w = (Ok (member_names house_id d), next w d)
       ∧ member_names house_id d ≠ []
       ∧ (VStr (lit "No members") ∉ member_names house_id d →
            member_names house_id d ≠ NO_MEMBERS)).
Proof.
  intros Hw d. subst d. rewrite get_house_members_serving by done. split.
  - intros Hnil. rewrite member_names_absent; [done|].
    by apply (filter_nil_absent (λ m, m_house_id m = house_id)).
  - intros u m Hu Hm Hid.
    pose proof (member_names_nonempty _ _ _ _ Hu Hm Hid) as Hne.
    split_and!; [|done|].
    + by destruct (member_names house_id (committed w)).
    + intros Hnot Heq. apply Hnot. rewrite Heq. by left.
Qed.

Lemma get_house_members_result_witness :
  serving (world_of maple_store [])
  ∧ get_house_members 1 (world_of maple_store [])
    = (Ok [VStr (lit "alice")], next (world_of maple_store []) maple_store).
Proof.
  split; [exact (serving_world_of _ maple_store_consistent)|].
  apply (proj2 (get_house_members_result 1 (world_of maple_store [])
                  (serving_world_of _ maple_store_consistent))
           alice {| m_user_id := 1; m_house_id := 1 |}).
  - by left.
  - by left.
  - reflexivity.
Defined.


(** *** Membership rows are not unique *)

Lemma filter_fmap_const {A} (P : val → Prop) `{∀ v, Decision (P v)}
  (c : val) (l : list A) :
  filter P ((λ _, c) <$> l) = if decide (P c) then (λ _, c) <$> l else [].
Proof.
  induction l as [|x l IH]; [by destruct (decide _)|].
  rewrite fmap_cons. destruct (decide (P c)) as [Hc|Hc].
  - by rewrite filter_cons_True, IH.
  - by rewrite filter_cons_False, IH.
Qed.

(** How often a name is listed: once for every membership row of every
    user row that carries the name. *)
Lemma member_names_count name house_id d :
  length (filter (λ v, v = VStr name) (member_names house_id d))
  = sum_list ((λ u, length (memberships_of_user (u_id u) house_id d))
              <$> filter (λ u, u_username u = name) (users d)).
Proof.
  unfold member_names.
  induction (users d) as [|u us IH]; [done|].
  rewrite bind_cons, filter_app, length_app, IH, filter_fmap_const.
  destruct (decide (u_username u = name)) as [Hn|Hn].
  - rewrite filter_cons_True by done. rewrite fmap_cons. simpl.
    rewrite decide_True by congruence. by rewrite length_fmap.
  - rewrite filter_cons_False by done.
    rewrite decide_False by congruence. done.
Qed.

Lemma sum_list_elem_of (n : nat) (l : list nat) : n ∈ l → n ≤ sum_list l.
Proof.
  induction l as [|x l IH]; [by intros ?%not_elem_of_nil|].
  intros [->|Hin%IH]%elem_of_cons; simpl; lia.
Qed.

Lemma memberships_of_user_insert user_id house_id d :
  memberships_of_user user_id house_id
    (set_user_houses
       (λ ms, ms ++ [{| m_user_id := user_id; m_house_id := house_id |}]) d)
  = memberships_of_user user_id house_id d
    ++ [{| m_user_id := user_id; m_house_id := house_id |}].
Proof.
  unfold memberships_of_user. simpl.
  by rewrite filter_app, filter_cons_True.
Qed.

Lemma memberships_of_insert user_id house_id d :
  memberships_of house_id
    (set_user_houses
       (λ ms, ms ++ [{| m_user_id := user_id; m_house_id := house_id |}]) d)
  = memberships_of house_id d
    ++ [{| m_user_id := user_id; m_house_id := house_id |}].
Proof.
  unfold memberships_of. simpl. by rewrite filter_app, filter_cons_True.
Qed.

Lemma length_filter_elem_of {A} (P : A → Prop) `{∀ x, Decision (P x)}
  (l : list A) x :
  x ∈ l → P x → 1 ≤ length (filter P l).
Proof.
  intros Hx HP.
  assert (x ∈ filter P l) as Hin by by apply list_elem_of_filter.
  destruct (filter P l); [by apply not_elem_of_nil in Hin|simpl; lia].
Qed.

(** C10.  Joining a house one already belongs to adds a second, identical
    membership row.  Afterwards [get_house_members] lists the username once
    for every such row (exactly so when no other user row carries the
    name), and [is_last_member], which compares the number of rows with 1,
    answers [False]. *)
Theorem add_user_house_duplicates (user_id house_id : Z) (w : world) :
  serving w →
  {| m_user_id := user_id; m_house_id := house_id |}
    ∈ user_houses (committed w) →
  let d := committed w in
  let d' :=
    set_user_houses
      (λ ms, ms ++ [{| m_user_id := user_id; m_house_id := house_id |}]) d in
  let w' := next w d' in
  add_user_house user_id house_id w = (Ok (), w')
  ∧ length (memberships_of_user user_id house_id d')
    = S (length (memberships_of_user user_id house_id d))
  ∧ 2 ≤ length (memberships_of_user user_id house_id d')
  ∧ (∀ u, u ∈ users d → u_id u = user_id →
       get_house_members house_id w'
       = (Ok (member_names house_id d'), next w' d')
       ∧ length (memberships_of_user user_id house_id d')
         ≤ length (filter (λ v, v = VStr (u_username u))
                     (member_names house_id d'))
       ∧ (filter (λ x, u_username x = u_username u) (users d) = [u] →
            length (filter (λ v, v = VStr (u_username u))
                      (member_names house_id d'))
            = length (memberships_of_user user_id house_id d')))
  ∧ is_last_member house_id w' = (Ok false, next w' d')
  ∧ (∀ w0, serving w0 →
       is_last_member house_id w0
       = (Ok (bool_decide
                (length (memberships_of house_id (committed w0)) = 1)),
          next w0 (committed w0))).
Proof.
  intros Hw Hm d d' w'.
  destruct (membership_parents _ _ _ (serving_consistent _ Hw) Hm)
    as [Hu Hh].
  assert (serving w') as Hw'.
  { apply serving_next; [done|].
    apply consistent_insert_user_house; [by apply serving_consistent|done..]. }
  assert (1 ≤ length (memberships_of_user user_id house_id d)) as H1.
  { by apply (length_filter_elem_of _ _ _ Hm). }
  assert (1 ≤ length (memberships_of house_id d)) as H2.
  { by apply (length_filter_elem_of _ _ _ Hm). }
  split_and!.
  - by apply add_user_house_serving.
  - subst d'. rewrite memberships_of_user_insert, length_app. simpl. lia.
  - subst d'. rewrite memberships_of_user_insert, length_app. simpl. lia.
  - intros u Hu' Hid. rewrite member_names_count.
    change (users d') with (users d).
    split_and!.
    + rewrite get_house_members_serving by done.
      change (committed w') with d'.
      assert (member_names house_id d' ≠ []) as Hne.
      { apply (member_names_nonempty house_id d' u
                 {| m_user_id := user_id; m_house_id := house_id |});
          [done| |done].
        subst d'. rewrite memberships_of_insert.
        apply elem_of_app. right. by left. }
      by destruct (member_names house_id d').
    + apply sum_list_elem_of, list_elem_of_fmap. exists u.
      split; [by rewrite Hid|]. by apply list_elem_of_filter.
    + intros ->. simpl. rewrite Hid. lia.
  - rewrite is_last_member_serving by done. change (committed w') with d'.
    subst d'. rewrite memberships_of_insert, length_app. simpl.
    rewrite bool_decide_eq_false_2; [done|lia].
  - intros w0 Hw0. by apply is_last_member_serving.
Qed.

Lemma add_user_house_duplicates_witness :
  serving (world_of maple_store [])
  ∧ {| m_user_id := 1; m_house_id := 1 |} ∈ user_houses maple_store
  ∧ add_user_house 1 1 (world_of maple_store [])
    = (Ok (), next (world_of maple_store []) joined_twice_store)
  ∧ is_last_member 1 (next (world_of maple_store []) joined_twice_store)
    = (Ok false,
       next (next (world_of maple_store []) joined_twice_store)
         joined_twice_store).
Proof.
  assert ({| m_user_id := 1; m_house_id := 1 |} ∈ user_houses maple_store)
    as Hm by by left.
  split; [exact (serving_world_of _ maple_store_consistent)|].
  split; [exact Hm|].
  pose proof (add_user_house_duplicates 1 1 (world_of maple_store [])
                (serving_world_of _ maple_store_consistent) Hm)
    as (Ha & _ & _ & _ & Hl & _).
  split; [exact Ha|exact Hl].
Defined.

(** The doubled row in the running example: the one member is listed twice
    and is not recognised as the last member. *)
Example joined_twice_listing :
  (get_house_members 1 (world_of joined_twice_store [])).1
  = Ok [VStr (lit "alice"); VStr (lit "alice")]
  ∧ (is_last_member 1 (world_of joined_twice_store [])).1 = Ok false.
Proof. by vm_compute. Qed.


(** *** Leaving a house *)

Lemma memberships_of_delete_user_house user_id house_id d :
  memberships_of house_id
    (set_user_houses
       (filter (λ m, ¬ (m_user_id m = user_id ∧ m_house_id m = house_id))) d)
  = filter (λ m, ¬ (m_user_id m = user_id ∧ m_house_id m = house_id))
      (memberships_of house_id d).
Proof.
  unfold memberships_of. simpl.
  rewrite !list_filter_filter. apply list_filter_iff. tauto.
Qed.










Lemma check_house_exists_absent house_name w :
  serving w → sendable house_name →
  house_name_absent house_name (committed w) →
  check_house_exists house_name w = (Ok None, next w (committed w)).
Proof.
  intros Hw Hs Hn. rewrite check_house_exists_serving by done.
  by rewrite filter_absent.
Qed.





(** The running example, run: the only member of "Maple St" leaves, and
    the house, its task and its restriction are gone. *)
Example leave_house_route_maple :
  ∃ w', leave_house_route 1 1 (world_of maple_store []) = (Ok JsonOk, w')
        ∧ houses (committed w') = [] ∧ user_houses (committed w') = []
        ∧ tasks (committed w') = [] ∧ restrictions (committed w') = []
        ∧ (check_house_exists (lit "Maple St") w').1 = Ok None
        ∧ (get_tasks_by_house_id 1 w').1 = Ok []
        ∧ (get_restrictions 1 w').1 = Ok [].
Proof. eexists. split; [by vm_compute|]. by vm_compute. Qed.

(** A member who holds two rows of a house with a task cannot leave: the
    handler keeps the task because it counts two rows, [leave_house] then
    finds no row left and deletes the house, which the store refuses. *)
Example leave_house_route_joined_twice :
  committed ((build_maple;; join_house_route 1 1)
               (world_of empty_store [])).2
  = joined_twice_store
  ∧ leave_house_route 1 1 (world_of joined_twice_store [])
    = (Raise IntegrityError, world_of joined_twice_store []).
Proof. split; by vm_compute. Qed.

(** The test after [leave_house] sees one row when one member remains: the
    handler then asks for the house to be deleted from under that member.
    The store refuses, and the request fails after the leave has been
    committed. *)
Example leave_house_route_second_to_last :
  (leave_house_route 1 1 (world_of shared_store [])).1
  = Raise IntegrityError
  ∧ let d := committed (leave_house_route 1 1 (world_of shared_store [])).2 in
    houses d = [maple_st]
    ∧ user_houses d = [{| m_user_id := 2; m_house_id := 1 |}]
    ∧ tasks d = [dishes] ∧ restrictions d = [vegan].
Proof. by vm_compute. Qed.


(** *** Creating a house *)

Lemma isspace_strip s : isspace (strip s) = false.
Proof.
  unfold isspace. pose proof (strip_trimmed s) as [Hh _].
  destruct (strip s) as [|c r]; [done|].
  simpl. by rewrite (Hh c).
Qed.

(** The guard of [user_home] looks up the stripped name, while
    [create_house] stores the formatted one: whenever no house carries the
    stripped name, a row with the formatted name is added, whether or not a
    house of that name exists already. *)
Lemma user_home_post_checks_stripped_name house_name user_id w :
  serving w →
  sendable house_name →
  has_user user_id (committed w) →
  strip house_name ≠ [] →
  length (strip house_name) ≤ 20 →
  house_name_absent (strip house_name) (committed w) →
  ∃ w', user_home_post (Some house_name) user_id w
        = (Ok (Redirect (lit "/user/home#load-section")), w')
        ∧ houses (committed w')
          = houses (committed w)
            ++ [{| h_house_id := houses_house_id_seq (committed w);
                   h_house_name := formatted_name house_name |}]
        ∧ user_houses (committed w')
          = user_houses (committed w)
            ++ [{| m_user_id := user_id;
                   m_house_id := houses_house_id_seq (committed w) |}].
Proof.
  intros Hw Hs Hu Hne Hlen Habs. unfold user_home_post.
  rewrite isspace_strip. rewrite bool_decide_eq_false_2 by done.
  rewrite bool_decide_eq_true_2 by done. simpl.
  unfold mbind, SE_bind.
  rewrite check_house_exists_absent by (done || by apply sendable_strip).
  simpl.
  rewrite create_house_serving
    by (done || by apply serving_same || by apply sendable_strip).
  eexists. split; [done|]. simpl.
  unfold formatted_name. by rewrite strip_fixed by apply strip_trimmed.
Qed.

(** A name that is stored as submitted is found by the guard, and nothing
    is added. *)
Lemma user_home_post_known_name house_name user_id w h :
  serving w →
  sendable house_name →
  strip house_name ≠ [] →
  length (strip house_name) ≤ 20 →
  h ∈ houses (committed w) → h_house_name h = strip house_name →
  user_home_post (Some house_name) user_id w
  = (Ok (Redirect (lit "/user/home#load-section")),
     next w (committed w)).
Proof.
  intros Hw Hs Hne Hlen Hin Hname. unfold user_home_post.
  rewrite isspace_strip. rewrite bool_decide_eq_false_2 by done.
  rewrite bool_decide_eq_true_2 by done. simpl.
  unfold mbind, SE_bind.
  rewrite check_house_exists_serving by (done || by apply sendable_strip).
  assert (h ∈ filter (λ h, h_house_name h = strip house_name)
                (houses (committed w))) as Hf
    by by apply list_elem_of_filter.
  destruct (filter _ _) as [|h' hs]; [by apply not_elem_of_nil in Hf|].
  done.
Qed.

(** C1 fails on a name with a doubled space: "Maple   St" is looked up as
    submitted, is not found next to the stored "Maple St", and is then
    stored as a second "Maple St". *)
Theorem user_home_post_duplicate_house :
  formatted_name (lit "Maple   St") = h_house_name maple_st
  ∧ strip (lit "Maple   St") = lit "Maple   St"
  ∧ ∃ w', user_home_post (Some (lit "Maple   St")) 1
            (world_of maple_store [])
          = (Ok (Redirect (lit "/user/home#load-section")), w')
          ∧ houses (committed w')
            = [maple_st;
               {| h_house_id := 2; h_house_name := lit "Maple St" |}].
Proof.
  split; [by vm_compute|]. split; [by vm_compute|].
  eexists. split; by vm_compute.
Qed.

(** *** Transactions *)

Lemma getconn_committed w : committed (getconn w).2 = committed w.
Proof.
  unfold getconn. destruct (idle (pool w)); [|done].
  case_bool_decide; [done|]. by destruct (faults w) as [|[] ?].
Qed.

Lemma putconn_committed c w : committed (putconn c w).2 = committed w.
Proof. unfold putconn. by case_bool_decide. Qed.

Lemma get_db_cursor_committed {A} (commit : bool) (body : C A) w :
  committed (get_db_cursor commit body w).2
  = match getconn w with
    | (Ok _, w1) =>
        let s :=
          (try_finally
             (x ← body;
              (if commit then connection_commit else mret ());;
              mret x)
             cursor_close (session_of w1)).2 in
        with_sequences_of (txn s) (durable s)
    | (Raise _, _) => committed w
    end.
Proof.
  unfold get_db_cursor, get_db_connection.
  pose proof (getconn_committed w) as Hg.
  destruct (getconn w) as [[c|e] w1]; simpl in Hg; [|done].
  unfold try_finally at 1, with_cursor. fold (session_of w1).
  destruct (try_finally _ cursor_close (session_of w1)) as [r s1].
  match goal with |- context [putconn c ?w2] =>
    pose proof (putconn_committed c w2) as Hp;
    destruct (putconn c w2) as [[[]|e] w3]
  end; done.
Qed.

Lemma cursor_block_durable {A} (commit : bool) (body : C A) (s0 : session) :
  (∀ s, durable (body s).2 = durable s) →
  let s' :=
    (try_finally
       (x ← body;
        (if commit then connection_commit else mret ());;
        mret x)
       cursor_close s0).2 in
  durable s' = durable s0
  ∨ ∃ a s1, body s0 = (Ok a, s1) ∧ commit = true
            ∧ durable s' = txn s1 ∧ txn s' = txn s1.
Proof.
  intros Hbody. specialize (Hbody s0).
  unfold try_finally, cursor_close, mbind, SE_bind, mret, SE_ret.
  destruct (body s0) as [[a|e] sb]; simpl in *; [|by left].
  destruct commit; [|by left]. unfold connection_commit.
  destruct (exchange (wire sb)) as [[[]|e] fs]; simpl; [|by left].
  right. by exists a, sb.
Qed.

(** One cursor block is all-or-nothing: when its body does not commit on
    its own, the rows it leaves in the tables are those it found, or the
    store is the one its body built by running to the end. *)
Lemma get_db_cursor_all_or_nothing {A} (commit : bool) (body : C A) w :
  (∀ s, durable (body s).2 = durable s) →
  tables (committed (get_db_cursor commit body w).2) = tables (committed w)
  ∨ ∃ fs a s1,
      body {| durable := committed w; txn := committed w; pending := [];
              wire := fs |} = (Ok a, s1)
      ∧ commit = true
      ∧ committed (get_db_cursor commit body w).2 = txn s1.
Proof.
  intros Hbody. rewrite get_db_cursor_committed.
  pose proof (getconn_committed w) as Hg.
  destruct (getconn w) as [[c|e] w1]; simpl in Hg; [|by left].
  destruct (cursor_block_durable commit body (session_of w1) Hbody)
    as [Hd|(a & s1 & Hb & Hc & Hd & Ht)]; cbv zeta.
  - left. rewrite with_sequences_of_tables, Hd. simpl. by rewrite Hg.
  - right. exists (faults w1), a, s1. rewrite <- Hg.
    split_and!; [done..|]. by rewrite Hd, Ht, with_sequences_of_same.
Qed.

Lemma execute_durable st params s :
  durable (execute st params s).2 = durable s.
Proof.
  unfold execute. destruct (mogrify params); [|done].
  destruct (exchange (wire s)) as [[[]|e] fs]; [|done].
  by destruct (st (txn s)) as [[rows|e] d].
Qed.

Lemma fetchone_durable s : durable (fetchone s).2 = durable s.
Proof. unfold fetchone. by destruct (pending s). Qed.

Lemma bind_durable {A B} (m : C A) (f : A → C B) s :
  (∀ s, durable (m s).2 = durable s) →
  (∀ a s, durable (f a s).2 = durable s) →
  durable ((m ≫= f) s).2 = durable s.
Proof.
  intros Hm Hf. unfold mbind, SE_bind. specialize (Hm s).
  destruct (m s) as [[a|e] s1]; simpl in *; [|done].
  by rewrite Hf.
Qed.

Ltac step_faults H :=
  repeat match type of H with
         | context [exchange ?fs] =>
             destruct fs as [|[] ?]; simpl in H; try discriminate H
         end.

(** Both multi-statement writes of the data layer are all-or-nothing,
    whatever fails or is refused: [leave_house] either leaves every table
    as it was or removes the membership rows and, when none is left, the
    house ... *)
Lemma leave_house_all_or_nothing user_id house_id w :
  tables (committed (leave_house user_id house_id w).2)
  = tables (committed w)
  ∨ committed (leave_house user_id house_id w).2
    = (let d :=
         set_user_houses
           (filter (λ m, ¬ (m_user_id m = user_id ∧ m_house_id m = house_id)))
           (committed w) in
       if decide (memberships_of house_id d = [])
       then set_houses (filter (λ h, h_house_id h ≠ house_id)) d else d).
Proof.
  unfold leave_house.
  match goal with |- context [get_db_cursor true ?b] => set (body := b) end.
  destruct (get_db_cursor_all_or_nothing true body w)
    as [Hsame|(fs & a & s1 & Hb & _ & Hc)]; [|by left|].
  { intros s. subst body.
    repeat (apply bind_durable; intros); auto using execute_durable,
      fetchone_durable.
    destruct (eq_int _ _); [apply execute_durable|done]. }
  right. rewrite Hc. clear Hc. subst body.
  unfold mbind, SE_bind, execute, fetchone, lift_result, mret, SE_ret in Hb.
  simpl in Hb. unfold memberships_of. simpl.
  step_faults Hb.
  all: set (ms := filter _ (filter _ _)) in *.
  all: destruct ms as [|m ms']; simpl in Hb.
  all: step_faults Hb.
  all: unfold sql_delete_house, constrained in Hb.
  all: repeat match type of Hb with
              | context [decide ?P] => destruct (decide P); simpl in Hb
              end.
  all: try discriminate Hb.
  all: try by injection Hb as _ <-.
Qed.

(** ... and [create_house] either leaves every table as it was or adds the
    house together with the membership of its creator. *)
Lemma create_house_all_or_nothing house_name creator_id w :
  tables (committed (create_house house_name creator_id w).2)
  = tables (committed w)
  ∨ committed (create_house house_name creator_id w).2
    = set_user_houses
        (λ ms, ms ++ [{| m_user_id := creator_id;
                         m_house_id := houses_house_id_seq (committed w) |}])
        (bump_houses_house_id_seq
           (set_houses
              (λ hs, hs ++ [{| h_house_id := houses_house_id_seq (committed w);
                               h_house_name := formatted_name house_name |}])
              (committed w))).
Proof.
  unfold create_house.
  match goal with |- context [get_db_cursor true ?b] => set (body := b) end.
  destruct (get_db_cursor_all_or_nothing true body w)
    as [Hsame|(fs & a & s1 & Hb & _ & Hc)]; [|by left|].
  { intros s. subst body.
    repeat (apply bind_durable; intros); auto using execute_durable,
      fetchone_durable. }
  right. rewrite Hc. clear Hc. subst body.
  unfold mbind, SE_bind, execute, fetchone, lift_result, mret, SE_ret in Hb.
  cbn [mogrify] in Hb.
  destruct (adapt (VStr (formatted_name house_name))); [|discriminate Hb].
  simpl in Hb.
  step_faults Hb.
  all: unfold sql_insert_user_house, constrained in Hb.
  all: repeat match type of Hb with
              | context [decide ?P] => destruct (decide P); simpl in Hb
              end.
  all: try discriminate Hb.
  all: try by injection Hb as _ <-.
Qed.

(** A house the creator cannot be made a member of is not created either:
    the house row is rolled back, and only the id drawn for it is lost. *)
Example create_house_unknown_creator :
  create_house (lit "Elm") 9 (world_of maple_store [])
  = (Raise IntegrityError,
     world_of (bump_houses_house_id_seq maple_store) []).
Proof. by vm_compute. Qed.

(** C2 fails for the leave-house flow: the handler runs its deletions as
    separate operations, each committed on its own.  When the server fails
    during [leave_house], after [delete_tasks_by_house] and
    [delete_restrictions_by_house] have committed, the tasks and
    restrictions of the house are gone for good while its membership row
    and the house itself are still there. *)
Theorem leave_house_route_partial_failure :
  leave_house_route 1 1
    (world_of maple_store [false; false; false; false; false; true])
  = (Raise OperationalError,
     world_of (set_restrictions (λ _, []) (set_tasks (λ _, []) maple_store))
       [])
  ∧ tasks maple_store = [dishes] ∧ restrictions maple_store = [vegan].
Proof. by vm_compute. Qed.

(** The same intermediate store is what any other reader sees between the
    second and the third operation of an undisturbed run. *)
Example leave_house_route_intermediate_state :
  committed
    ((last ← is_last_member 1;
      (if last : bool
       then delete_tasks_by_house 1;; delete_restrictions_by_house 1
       else mret ()))
       (world_of maple_store [])).2
  = set_restrictions (λ _, []) (set_tasks (λ _, []) maple_store).
Proof. by vm_compute. Qed.

End operations.

(** ** More of the data layer *)

Section coverage.

Implicit Types (w : world) (d : DB) (st : statement).

(** *** The pool and the store under failures *)

(** X1.  With every connection of the pool handed out, a data-access
    operation does not run its body: it raises [UnboundLocalError] (the
    error of the [finally] clause, which hides the pool's own) and leaves
    pool, store and pending failures exactly as they were. *)
Theorem get_db_cursor_pool_exhausted {A} (commit : bool) (body : C A) w :
  idle (pool w) = [] →
  length (used (pool w)) = maxconn (pool w) →
  get_db_cursor commit body w = (Raise UnboundLocalError, w).
Proof.
  intros Hidle Hfull. unfold get_db_cursor, get_db_connection, getconn.
  rewrite Hidle. by rewrite bool_decide_eq_true_2.
Qed.

Lemma get_db_cursor_pool_exhausted_witness :
  let w := {| pool := {| minconn := 1; maxconn := 2; dsn := lit "db";
                         sslmode := lit "require"; idle := [];
                         used := [1; 0]; opened := 2 |};
              committed := maple_store; faults := [] |} in
  create_house (lit "Oak") 1 w = (Raise UnboundLocalError, w).
Proof.
  intros w. apply (get_db_cursor_pool_exhausted true _ w); reflexivity.
Defined.

(** A cursor body is quiet when it leaves the committed store and the
    store of its transaction as they are. *)
Lemma get_db_cursor_quiet {A} (body : C A) w :
  (∀ s, durable (body s).2 = durable s ∧ txn (body s).2 = txn s) →
  committed (get_db_cursor false body w).2 = committed w.
Proof.
  intros Hbody. rewrite get_db_cursor_committed.
  pose proof (getconn_committed w) as Hg.
  destruct (getconn w) as [[c|e] w1]; simpl in Hg; [|done].
  cbv zeta. unfold try_finally, cursor_close, mbind, SE_bind, mret, SE_ret.
  destruct (Hbody (session_of w1)) as [Hd Ht].
  destruct (body (session_of w1)) as [[a|e] sb]; simpl in *.
  all: by rewrite Hd, Ht, Hg, with_sequences_of_same.
Qed.

Lemma execute_query_quiet (q : DB → list row) params s :
  durable (execute (query q) params s).2 = durable s
  ∧ txn (execute (query q) params s).2 = txn s.
Proof.
  unfold execute, query. destruct (mogrify params); [|done].
  by destruct (exchange (wire s)) as [[[]|e] fs].
Qed.

Lemma fetchone_quiet s :
  durable (fetchone s).2 = durable s ∧ txn (fetchone s).2 = txn s.
Proof. unfold fetchone. by destruct (pending s). Qed.

Lemma fetchall_quiet s :
  durable (fetchall s).2 = durable s ∧ txn (fetchall s).2 = txn s.
Proof. done. Qed.

Lemma lift_result_quiet {A} (r : result A) s :
  durable (lift_result r s).2 = durable s ∧ txn (lift_result r s).2 = txn s.
Proof. done. Qed.

Lemma mret_quiet {A} (a : A) (s : session) :
  durable ((mret a : C A) s).2 = durable s
  ∧ txn ((mret a : C A) s).2 = txn s.
Proof. done. Qed.

Lemma bind_quiet {A B} (m : C A) (f : A → C B) s :
  (∀ s, durable (m s).2 = durable s ∧ txn (m s).2 = txn s) →
  (∀ a s, durable (f a s).2 = durable s ∧ txn (f a s).2 = txn s) →
  durable ((m ≫= f) s).2 = durable s ∧ txn ((m ≫= f) s).2 = txn s.
Proof.
  intros Hm Hf. unfold mbind, SE_bind. specialize (Hm s).
  destruct (m s) as [[a|e] s1]; simpl in *; [|done].
  destruct (Hf a s1) as [-> ->]. done.
Qed.

Ltac quiet :=
  intros;
  repeat first
    [ apply execute_query_quiet | apply fetchone_quiet | apply fetchall_quiet
    | apply lift_result_quiet | apply mret_quiet
    | apply bind_quiet; intros
    | match goal with
      | |- context [match ?x with _ => _ end] => destruct x
      end ].

(** X2.  No read operation of the data layer changes the committed store, in
    any world: not when it succeeds, not when the driver rejects its key,
    and not when the pool or the server fails in the middle of it. *)
Theorem reads_leave_store w :
  (∀ email, committed (check_user_exists email w).2 = committed w)
  ∧ (∀ name, committed (check_house_exists name w).2 = committed w)
  ∧ committed (get_houses w).2 = committed w
  ∧ (∀ distinct u,
       committed (get_houses_to_join distinct u w).2 = committed w)
  ∧ (∀ email, committed (get_user_id email w).2 = committed w)
  ∧ (∀ u, committed (get_user_houses u w).2 = committed w)
  ∧ (∀ h, committed (get_house_members h w).2 = committed w)
  ∧ (∀ h, committed (is_last_member h w).2 = committed w)
  ∧ (∀ h, committed (get_member_id_dict h w).2 = committed w)
  ∧ (∀ h, committed (get_house_name_by_id h w).2 = committed w)
  ∧ (∀ u, committed (get_user_by_id u w).2 = committed w)
  ∧ (∀ h, committed (get_tasks_by_house_id h w).2 = committed w)
  ∧ (∀ T (f : row → result T) h,
       committed (get_tasks_with_due_dates f h w).2 = committed w)
  ∧ (∀ h, committed (get_restrictions h w).2 = committed w).
Proof.
  split_and!; intros.
  all: try (apply get_db_cursor_quiet; quiet; fail).
  unfold get_tasks_with_due_dates, mbind, SE_bind.
  assert (committed (get_tasks_by_house_id h w).2 = committed w) as Hr
    by (apply get_db_cursor_quiet; quiet).
  by destruct (get_tasks_by_house_id h w) as [[ts|e] w1].
Qed.


(** *** Tasks *)




Lemma consistent_set_tasks (ts : list task_row) d :
  consistent d →
  Forall (λ t, has_user (t_user_id t) d ∧ has_house (t_house_id t) d) ts →
  consistent (set_tasks (λ _, ts) d).
Proof. by intros (Hm & _ & Hr) Hts. Qed.

Lemma consistent_bump_tasks d :
  consistent d → consistent (bump_tasks_task_id_seq d).
Proof. done. Qed.





(** *** Accounts *)

Lemma create_user_account_serving username email w :
  serving w → sendable username → sendable email →
  create_user_account username email w
  = (Ok (),
     next w
       (bump_users_id_seq
          (set_users
             (λ us, us ++ [{| u_id := users_id_seq (committed w);
                              u_username := username;
                              u_email := email |}])
             (committed w)))).
Proof.
  intros Hw Hs Hs'. unfold create_user_account.
  erewrite cursor_execute_commit; [done|done| |done].
  unfold mogrify. by rewrite !adapt_sendable.
Qed.

Lemma has_user_insert x user d :
  has_user x d →
  has_user x (bump_users_id_seq (set_users (λ us, us ++ [user]) d)).
Proof.
  unfold has_user. simpl. rewrite fmap_app, elem_of_app. by left.
Qed.

Lemma consistent_insert_user user d :
  consistent d →
  consistent (bump_users_id_seq (set_users (λ us, us ++ [user]) d)).
Proof.
  intros (Hm & Ht & Hr). unfold consistent.
  split_and!; simpl; (eapply Forall_impl; [eassumption|]); simpl.
  all: intros x [? ?]; split; try done; by apply has_user_insert.
Qed.

(** X4.  The sign-up of a new user: the account is created with the next id
    of the sequence, after which the lookups by email that [callback] makes
    find the username and that id. *)
Theorem create_user_account_then_found (username email : str) (w : world) :
  serving w →
  sendable username → sendable email →
  email_absent email (committed w) →
  ∃ w1,
    create_user_account username email w = (Ok (), w1)
    ∧ users (committed w1)
      = users (committed w)
        ++ [{| u_id := users_id_seq (committed w); u_username := username;
               u_email := email |}]
    ∧ check_user_exists email w1
      = (Ok (Some [VStr username]), next w1 (committed w1))
    ∧ get_user_id email w1
      = (Ok (Some [VInt (users_id_seq (committed w))]),
         next w1 (committed w1)).
Proof.
  intros Hw Hs Hs' Habs.
  rewrite create_user_account_serving by done.
  eexists. split; [done|].
  match goal with |- context [next w ?d] => set (d1 := d) end.
  assert (serving (next w d1)) as Hw1.
  { apply serving_next; [done|].
    by apply consistent_insert_user, serving_consistent. }
  rewrite check_user_exists_serving, get_user_id_serving by done.
  simpl. rewrite !filter_app, filter_absent by done.
  by rewrite filter_cons_True by done.
Qed.

Lemma create_user_account_then_found_witness :
  ∃ w1,
    create_user_account (lit "bob") (lit "bob@x.com")
      (world_of maple_store []) = (Ok (), w1)
    ∧ get_user_id (lit "bob@x.com") w1
      = (Ok (Some [VInt 2]), next w1 (committed w1)).
Proof.
  assert (sendable (lit "bob")) as Hs by (by repeat constructor).
  assert (email_absent (lit "bob@x.com")
            (committed (world_of maple_store []))) as Habs
    by (by repeat constructor).
  destruct (create_user_account_then_found (lit "bob") (lit "bob@x.com")
              (world_of maple_store [])
              (serving_world_of _ maple_store_consistent)
              Hs bob_email_sendable Habs)
    as (w1 & H1 & _ & _ & H2).
  exists w1. split; [exact H1|exact H2].
Defined.

(** *** Houses *)



(** X6.  A submitted name that is blank, or longer than 20 characters once
    stripped, is turned away before the data layer is touched. *)
Theorem user_home_post_turned_away (house_name : str) (user_id : Z)
  (w : world) :
  strip house_name = [] ∨ 20 < length (strip house_name) →
  user_home_post (Some house_name) user_id w
  = (Ok (Redirect (lit "/user/home")), w).
Proof.
  intros Hcase. unfold user_home_post. rewrite isspace_strip. simpl.
  destruct Hcase as [->|Hlong]; [done|].
  rewrite bool_decide_eq_false_2
    by (intros Hnil; rewrite Hnil in Hlong; simpl in Hlong; lia).
  by rewrite bool_decide_eq_false_2 by lia.
Qed.

Lemma user_home_post_turned_away_witness :
  user_home_post (Some (lit "   ")) 1 (world_of maple_store [true])
  = (Ok (Redirect (lit "/user/home")), world_of maple_store [true]).
Proof.
  apply (user_home_post_turned_away (lit "   ") 1
           (world_of maple_store [true])).
  left. reflexivity.
Defined.


(** *** The last test of [leave_house_route] *)

(** X7.  When exactly one membership row of the house belongs to somebody
    else, the request to leave fails after its effects are committed: the
    rows of the user are deleted, [is_last_member] then sees the one row
    that is left and the handler asks for the house to be deleted, which the
    store refuses because of that row. If the user held no row at all, the
    first [is_last_member] saw the one row as well, and the tasks and the
    restrictions of the house have been deleted on behalf of a user who is
    not a member. *)
Theorem leave_house_route_one_row_left (user_id house_id : Z) (w : world) :
  serving w →
  length (filter (λ m, m_user_id m ≠ user_id)
            (memberships_of house_id (committed w))) = 1 →
  let d := committed w in
  let outsider := bool_decide (length (memberships_of house_id d) = 1) in
  let d0 :=
    if outsider
    then set_restrictions (filter (λ r, r_house_id r ≠ house_id))
           (set_tasks (filter (λ t, t_house_id t ≠ house_id)) d)
    else d in
  let d1 :=
    set_user_houses
      (filter (λ m, ¬ (m_user_id m = user_id ∧ m_house_id m = house_id)))
      d0 in
  ∃ w', leave_house_route user_id house_id w = (Raise IntegrityError, w')
        ∧ committed w' = d1
        ∧ has_house house_id d1
        ∧ length (memberships_of house_id d1) = 1.
Proof.
  intros Hw Hone d outsider d0 d1. fold d in Hone.
  pose proof (serving_consistent _ Hw) as Hd. fold d in Hd.
  assert (memberships_of house_id d1
          = filter (λ m, m_user_id m ≠ user_id) (memberships_of house_id d))
    as Hrest.
  { subst d1. rewrite memberships_of_delete_user_house.
    assert (memberships_of house_id d0 = memberships_of house_id d) as ->
      by (subst d0; by destruct outsider).
    unfold memberships_of. rewrite !list_filter_filter.
    apply list_filter_iff. intros m. simpl. split.
    - intros [Hnot Hh]. split; [|done]. intros Hu. by apply Hnot.
    - intros [Hu Hh]. split; [|done]. by intros [? _]. }
  assert (consistent d0) as Hd0.
  { subst d0. destruct outsider; [|done].
    by apply consistent_delete_restrictions, consistent_delete_tasks. }
  assert (consistent d1) as Hd1 by by apply consistent_delete_user_houses.
  assert (has_house house_id d1 ∧ ¬ unreferenced house_id d1) as [Hh Href].
  { destruct (memberships_of house_id d1) as [|m ms] eqn:E;
      [by rewrite <- Hrest in Hone|].
    assert (m ∈ memberships_of house_id d1) as Hm by (rewrite E; by left).
    unfold memberships_of in Hm.
    apply list_elem_of_filter in Hm as [Hmh Hm].
    destruct Hd1 as (Hms & _). rewrite Forall_forall in Hms.
    destruct (Hms m Hm) as [_ Hhouse]. rewrite Hmh in Hhouse.
    split; [done|]. intros (Um & _). rewrite Forall_forall in Um.
    by apply (Um m Hm). }
  assert (∀ w0, serving w0 → committed w0 = d0 →
            (leave_house user_id house_id;;
             last ← is_last_member house_id;
             (if last : bool then delete_house house_id else mret ());;
             mret JsonOk) w0
            = (Raise IntegrityError, next (next (next w0 d1) d1) d1))
    as Htail.
  { intros w0 Hw0 Hc. unfold mbind, SE_bind.
    rewrite leave_house_serving by done. cbv zeta. rewrite Hc. fold d1.
    rewrite decide_False by (rewrite Hrest; intros E; by rewrite E in Hone).
    assert (serving (next w0 d1)) as Hw1 by by apply serving_next.
    rewrite is_last_member_serving by done.
    change (committed (next w0 d1)) with d1.
    rewrite Hrest, Hone. simpl.
    assert (serving (next (next w0 d1) d1)) as Hw2 by by apply serving_next.
    by rewrite delete_house_refused. }
  unfold leave_house_route.
  unfold mbind at 1, SE_bind at 1.
  rewrite is_last_member_serving by done. fold d outsider.
  unfold mbind at 1, SE_bind at 1.
  destruct outsider eqn:Hout.
  - unfold mbind at 1, SE_bind at 1.
    rewrite delete_tasks_by_house_serving by by apply serving_same.
    set (dt := set_tasks _ (committed _)).
    assert (consistent dt) as Hdt by by apply consistent_delete_tasks.
    assert (serving (next (next w d) dt)) as Hwt.
    { apply serving_next; [by apply serving_same|done]. }
    rewrite delete_restrictions_by_house_serving by done.
    rewrite Htail; [|by apply serving_next|done].
    eexists. split; [done|]. by rewrite Hrest.
  - unfold mret at 1, SE_ret at 1.
    rewrite Htail; [|by apply serving_same|done].
    eexists. split; [done|]. by rewrite Hrest.
Qed.

Lemma leave_house_route_one_row_left_witness :
  ∃ w', leave_house_route 1 1 (world_of shared_store [])
        = (Raise IntegrityError, w')
        ∧ houses (committed w') = [maple_st]
        ∧ user_houses (committed w') = [{| m_user_id := 2; m_house_id := 1 |}].
Proof.
  assert (length (filter (λ m, m_user_id m ≠ 1%Z)
                    (memberships_of 1
                       (committed (world_of shared_store [])))) = 1)
    as Hone by reflexivity.
  destruct (leave_house_route_one_row_left 1 1 (world_of shared_store [])
              (serving_world_of _ shared_store_consistent) Hone)
    as (w' & Hrun & Hc & _).
  exists w'. split; [exact Hrun|]. rewrite Hc. split; reflexivity.
Defined.

(** The same request sent by a user who is not a member of a house with one
    member: the member's tasks and restrictions are gone. *)
Example leave_house_route_outsider :
  (leave_house_route 2 1 (world_of maple_store [])).1 = Raise IntegrityError
  ∧ let d := committed (leave_house_route 2 1 (world_of maple_store [])).2 in
    houses d = [maple_st]
    ∧ user_houses d = [{| m_user_id := 1; m_house_id := 1 |}]
    ∧ tasks d = [] ∧ restrictions d = [].
Proof. by vm_compute. Qed.

(** *** Restrictions *)





(** *** The two listings of the home page *)

Lemma left_join_elem_of {A B K} `{EqDecision K} (ka : A → K) (kb : B → K)
  (l : list A) (r : list B) (a : A) (ob : option B) :
  (a, ob) ∈ left_join ka kb l r
  ↔ a ∈ l
    ∧ match ob with
      | Some b => b ∈ r ∧ ka a = kb b
      | None => Forall (λ b, ka a ≠ kb b) r
      end.
Proof.
  unfold left_join. rewrite list_elem_of_bind. split.
  - intros (a' & Hx & Ha).
    destruct (filter (λ b, ka a' = kb b) r) as [|b bs] eqn:E.
    + apply list_elem_of_singleton in Hx as [= <- ->]. split; [done|].
      by apply (filter_nil_absent (λ b, ka a = kb b)).
    + apply list_elem_of_fmap in Hx as (b' & [= <- ->] & Hb).
      split; [done|]. rewrite <- E in Hb.
      by apply list_elem_of_filter in Hb as [? ?].
  - intros [Ha Hob]. exists a. split; [|done].
    destruct ob as [b|].
    + destruct Hob as [Hb Hk].
      assert (b ∈ filter (λ b, ka a = kb b) r) as Hin
        by by apply list_elem_of_filter.
      destruct (filter (λ b, ka a = kb b) r) as [|b0 bs];
        [by apply not_elem_of_nil in Hin|].
      apply list_elem_of_fmap. by exists b.
    + rewrite filter_absent by done. by apply list_elem_of_singleton.
Qed.

(** X9.  The home page lists, as houses to join, every house in which the
    user holds no membership row, each once; and as houses of the user, one
    entry with name and id for every membership row the user holds. *)
Theorem home_page_listings (distinct : list row → list row) (user_id : Z)
  (w : world) :
  serving w →
  distinct_step distinct →
  let d := committed w in
  (∃ rows,
     get_houses_to_join distinct user_id w = (Ok rows, next w d)
     ∧ NoDup rows
     ∧ ∀ r, r ∈ rows
            ↔ ∃ h, h ∈ houses d
                   ∧ memberships_of_user user_id (h_house_id h) d = []
                   ∧ r = [VStr (h_house_name h); VInt (h_house_id h)])
  ∧ (∃ rows,
       get_user_houses user_id w = (Ok rows, next w d)
       ∧ ∀ r, r ∈ rows
              ↔ ∃ m h, m ∈ user_houses d ∧ m_user_id m = user_id
                       ∧ h ∈ houses d ∧ h_house_id h = m_house_id m
                       ∧ r = [VStr (h_house_name h); VInt (h_house_id h)]).
Proof.
  intros Hw Hdistinct d.
  pose proof (serving_consistent _ Hw) as (Hcons & _). fold d in Hcons.
  rewrite Forall_forall in Hcons.
  rewrite get_houses_to_join_serving, get_user_houses_serving by done.
  unfold sql_select_houses_to_join, sql_select_user_houses, query.
  simpl. fold d. split.
  - eexists. split; [done|]. split; [apply Hdistinct|]. intros r.
    rewrite (proj2 (Hdistinct _)), list_elem_of_fmap.
    assert (∀ h, h_house_id h ∉
                   m_house_id <$> filter (λ m, m_user_id m = user_id)
                                    (user_houses d)
                 ↔ memberships_of_user user_id (h_house_id h) d = [])
      as Hjoined.
    { intros h. unfold memberships_of_user. split.
      - intros Hnot. apply filter_absent, Forall_forall.
        intros m Hm [Hu Hh]. apply Hnot, list_elem_of_fmap.
        exists m. split; [done|]. by apply list_elem_of_filter.
      - intros Hnil (m & Hh & [Hu Hm]%list_elem_of_filter)%list_elem_of_fmap.
        by apply (filter_nil_not_elem_of _ _ m Hnil). }
    split.
    + intros ([h om] & -> & [Hnot Hin]%list_elem_of_filter).
      apply left_join_fst in Hin. exists h.
      split; [done|]. split; [|done]. by apply Hjoined.
    + intros (h & Hh & Hnone & ->).
      destruct (filter (λ m, h_house_id h = m_house_id m) (user_houses d))
        as [|m ms] eqn:E.
      * exists (h, None). split; [done|].
        apply list_elem_of_filter. split; [by apply Hjoined|].
        apply left_join_elem_of. split; [done|].
        by apply (filter_nil_absent (λ m, h_house_id h = m_house_id m)).
      * exists (h, Some m). split; [done|].
        apply list_elem_of_filter. split; [by apply Hjoined|].
        apply left_join_elem_of. split; [done|].
        assert (m ∈ filter (λ m, h_house_id h = m_house_id m)
                      (user_houses d)) as Hm by (rewrite E; by left).
        by apply list_elem_of_filter in Hm as [? ?].
  - eexists. split; [done|]. intros r. rewrite list_elem_of_fmap. split.
    + intros ([m oh] & -> & [Hu Hin]%list_elem_of_filter).
      apply left_join_elem_of in Hin as [Hm Hoh]. simpl in Hu.
      destruct oh as [h|].
      * destruct Hoh as [Hh Hid]. exists m, h. simpl.
        split_and!; try done. by rewrite Hid.
      * exfalso. destruct (Hcons m Hm) as [_ Hhouse].
        unfold has_house in Hhouse.
        apply list_elem_of_fmap in Hhouse as (h & Hid & Hh).
        rewrite Forall_forall in Hoh. by apply (Hoh h Hh).
    + intros (m & h & Hm & Hu & Hh & Hid & ->).
      exists (m, Some h). simpl. split; [by rewrite Hid|].
      apply list_elem_of_filter. split; [done|].
      apply left_join_elem_of. by split.
Qed.

Lemma home_page_listings_witness :
  ∃ rows,
    get_houses_to_join remove_dups 1 (world_of maple_store [])
    = (Ok rows, next (world_of maple_store []) maple_store)
    ∧ NoDup rows.
Proof.
  destruct (home_page_listings remove_dups 1 (world_of maple_store [])
              (serving_world_of _ maple_store_consistent)
              remove_dups_distinct_step)
    as [(rows & H1 & H2 & _) _].
  exists rows. split; [exact H1|exact H2].
Defined.

(** The listings of the running example, for its one user. *)
Example home_page_listings_maple :
  (get_user_houses 1 (world_of maple_store [])).1
  = Ok [[VStr (lit "Maple St"); VInt 1]]
  ∧ (get_houses_to_join remove_dups 1 (world_of maple_store [])).1 = Ok []
  ∧ (get_houses_to_join remove_dups 2 (world_of maple_store [])).1
    = Ok [[VStr (lit "Maple St"); VInt 1]].
Proof. by vm_compute. Qed.


(** *** Writes that raise *)



Lemma fetchall_durable s : durable (fetchall s).2 = durable s.
Proof. done. Qed.

Lemma lift_result_durable {A} (r : result A) s :
  durable (lift_result r s).2 = durable s.
Proof. done. Qed.

Lemma mret_durable {A} (a : A) (s : session) :
  durable ((mret a : C A) s).2 = durable s.
Proof. done. Qed.

Ltac durable :=
  intros;
  repeat first
    [ apply execute_durable | apply fetchone_durable | apply fetchall_durable
    | apply lift_result_durable | apply mret_durable
    | apply bind_durable; intros
    | match goal with
      | |- context [match ?x with _ => _ end] => destruct x
      end ].




(** *** The members of a house, by name *)

Lemma member_dict_pairs (acc : gmap val val) (ps : list (val * val)) :
  foldl (λ acc member,
           dict ← acc;
           k ← getitem (Some member) 1;
           v ← getitem (Some member) 0;
           Ok (<[k := v]> dict))
        (Ok acc) ((λ p : val * val, [p.1; p.2]) <$> ps)
  = Ok (foldl (λ dict p, <[p.2 := p.1]> dict) acc ps).
Proof.
  revert acc. induction ps as [|p ps IH]; intros acc; [done|].
  rewrite fmap_cons. simpl. apply IH.
Qed.

Lemma foldl_insert_lookup (acc : gmap val val) (ps : list (val * val)) k v :
  foldl (λ dict p, <[p.2 := p.1]> dict) acc ps !! k = Some v →
  (v, k) ∈ ps ∨ acc !! k = Some v.
Proof.
  revert acc. induction ps as [|[a b] ps IH]; intros acc; [by right|].
  simpl. intros [Hin|Hacc]%IH; [left; by right|].
  destruct (decide (b = k)) as [<-|Hne].
  - rewrite lookup_insert_eq in Hacc. injection Hacc as <-.
    left. by left.
  - rewrite lookup_insert_ne in Hacc by done. by right.
Qed.

Lemma foldl_insert_is_Some (acc : gmap val val) (ps : list (val * val)) k :
  (∃ v, (v, k) ∈ ps) ∨ is_Some (acc !! k) →
  is_Some (foldl (λ dict p, <[p.2 := p.1]> dict) acc ps !! k).
Proof.
  revert acc. induction ps as [|[a b] ps IH]; intros acc.
  - intros [[v Hv]|?]; [by apply not_elem_of_nil in Hv|done].
  - simpl. intros Hcase. apply IH.
    destruct Hcase as [[v [[= <- <-]|Hv]%elem_of_cons]|Hacc].
    + right. rewrite lookup_insert_eq. by eexists.
    + left. by exists v.
    + right. destruct (decide (b = k)) as [<-|Hne].
      * rewrite lookup_insert_eq. by eexists.
      * by rewrite lookup_insert_ne.
Qed.

(** X11.  [get_member_id_dict] maps the username of every member of the
    house to the id of a member of that name, and has no other key: two
    members who share a username share one entry. *)
Theorem get_member_id_dict_entries (house_id : Z) (w : world) :
  serving w →
  let d := committed w in
  ∃ members,
    get_member_id_dict house_id w = (Ok members, next w d)
    ∧ (∀ k v, members !! k = Some v →
         ∃ u, u ∈ users d ∧ memberships_of_user (u_id u) house_id d ≠ []
              ∧ k = VStr (u_username u) ∧ v = VInt (u_id u))
    ∧ (∀ u, u ∈ users d → memberships_of_user (u_id u) house_id d ≠ [] →
         is_Some (members !! VStr (u_username u))).
Proof.
  intros Hw d. rewrite get_member_id_dict_serving by done. fold d.
  unfold sql_select_member_ids, query. simpl.
  set (joined := filter _ (inner_join u_id m_user_id (users d)
                             (user_houses d))).
  assert (∀ u m, (u, m) ∈ joined
                 ↔ u ∈ users d ∧ m ∈ memberships_of_user (u_id u) house_id d)
    as Hjoined.
  { intros u m. subst joined. unfold inner_join, memberships_of_user.
    rewrite list_elem_of_filter, list_elem_of_bind. simpl. split.
    - intros [Hh (u' & Hin & Hu')].
      apply list_elem_of_bind in Hin as (m' & Hin & Hm').
      apply list_elem_of_singleton in Hin as [= <- <-].
      apply list_elem_of_filter in Hm' as [Hid Hm'].
      split; [done|]. apply list_elem_of_filter. by rewrite Hid.
    - intros [Hu [[Hid Hh] Hm]%list_elem_of_filter]. split; [done|].
      exists u. split; [|done]. apply list_elem_of_bind. exists m.
      split; [by apply list_elem_of_singleton|].
      by apply list_elem_of_filter. }
  pose (ps := (λ um : user_row * membership_row,
                 (VInt (u_id um.1), VStr (u_username um.1))) <$> joined).
  assert ((λ um : user_row * membership_row,
             [VInt (u_id um.1); VStr (u_username um.1)]) <$> joined
          = (λ p : val * val, [p.1; p.2]) <$> ps) as ->.
  { subst ps. rewrite <- list_fmap_compose. done. }
  unfold member_dict. rewrite member_dict_pairs.
  eexists. split; [done|]. split.
  - intros k v [Hin|Hemp]%foldl_insert_lookup; [|by rewrite lookup_empty in Hemp].
    subst ps. apply list_elem_of_fmap in Hin as ([u m] & [= -> ->] & Hum).
    apply Hjoined in Hum as [Hu Hm]. exists u. split_and!; try done.
    intros Hnil. rewrite Hnil in Hm. by apply not_elem_of_nil in Hm.
  - intros u Hu Hne. apply foldl_insert_is_Some. left.
    destruct (memberships_of_user (u_id u) house_id d) as [|m ms] eqn:E;
      [done|].
    exists (VInt (u_id u)). subst ps. apply list_elem_of_fmap.
    exists (u, m). split; [done|]. apply Hjoined. split; [done|].
    rewrite E. by left.
Qed.

Lemma get_member_id_dict_entries_witness :
  ∃ members,
    get_member_id_dict 1 (world_of shared_store [])
    = (Ok members, next (world_of shared_store []) shared_store)
    ∧ is_Some (members !! VStr (lit "bob")).
Proof.
  destruct (get_member_id_dict_entries 1 (world_of shared_store [])
              (serving_world_of _ shared_store_consistent))
    as (members & H1 & _ & H2).
  exists members. split; [exact H1|].
  apply (H2 bob).
  - right. by left.
  - by vm_compute.
Defined.

End coverage.

(** ** Pool setup *)

(** C7, as the claim states it, fails: no two environments give pools with
    different bounds. *)
Lemma setup_bounds_not_configurable :
  ¬ ∃ (environ environ' : gmap str str) p p',
      setup environ = Ok p ∧ setup environ' = Ok p'
      ∧ (minconn p ≠ minconn p' ∨ maxconn p ≠ maxconn p').
Proof.
  intros (environ & environ' & p & p' & H & H' & Hne).
  unfold setup in H, H'.
  destruct (environ !! lit "DATABASE_URL"); [|done].
  destruct (environ' !! lit "DATABASE_URL"); [|done].
  injection H as <-. injection H' as <-. simpl in Hne. by destruct Hne.
Qed.

(** C7, amended.  [setup] reads the connection string, and nothing else,
    from the environment: it raises [KeyError] when [DATABASE_URL] is not
    set, and otherwise builds the pool with the literal bounds 1 and 100
    and the literal [sslmode] "require". *)
Theorem setup_pool_bounds (environ : gmap str str) :
  match setup environ with
  | Ok p =>
      minconn p = 1 ∧ maxconn p = 100
      ∧ environ !! lit "DATABASE_URL" = Some (dsn p)
      ∧ sslmode p = lit "require"
      ∧ idle p = [0] ∧ used p = []
  | Raise e => e = KeyError ∧ environ !! lit "DATABASE_URL" = None
  end.
Proof. unfold setup. by destruct (environ !! lit "DATABASE_URL"). Qed.

Example setup_ignores_pool_settings :
  setup (<[lit "DATABASE_URL" := lit "postgresql://roomhub"]>
         (<[lit "DB_POOL_MAX" := lit "5"]> ∅))
  = Ok fresh_pool.
Proof. by vm_compute. Qed.

(** ** Rounding to a day boundary *)

Section day_rounder.

Local Open Scope Z_scope.

Implicit Types t : datetime.

Lemma datetime_add_one_day t :
  is_midnight t →
  datetime_add t (timedelta_days 1)
  = if bool_decide (0 < ordinal t + 1 ≤ MAXORDINAL)
    then Ok (next_midnight t) else Raise OverflowError.
Proof.
  intros (Hh & Hm & Hs & Hu). unfold datetime_add, to_us, timedelta_days.
  rewrite Hh, Hm, Hs, Hu.
  replace (ordinal t * US_PER_DAY + ((0 * 60 + 0) * 60 + 0) * 1000000 + 0
           + 1 * US_PER_DAY) with ((ordinal t + 1) * US_PER_DAY) by lia.
  rewrite Z.div_mul by done. rewrite Z.mod_mul by done.
  reflexivity.
Qed.

Lemma time_of_day_eq t :
  time_of_day t
  = ((hour t * 60 + minute t) * 60 + second t) * 1000000 + microsecond t.
Proof. unfold time_of_day, own_midnight, replace_midnight, to_us. simpl. lia. Qed.

(** The test of [day_rounder] is "not past noon". *)
Lemma day_rounder_test t :
  valid_datetime t →
  (hour t < 12 ∨ is_noon t) ↔ time_of_day t ≤ HALF_DAY.
Proof.
  intros (_ & Hh & Hm & Hs & Hu). rewrite time_of_day_eq.
  unfold is_noon, HALF_DAY. lia.
Qed.

Lemma day_rounder_eq t :
  valid_datetime t →
  day_rounder t
  = if bool_decide (time_of_day t ≤ HALF_DAY) then Ok (own_midnight t)
    else if bool_decide (ordinal t < MAXORDINAL) then Ok (next_midnight t)
    else Raise OverflowError.
Proof.
  intros Hv. pose proof (day_rounder_test t Hv) as Htest.
  destruct Hv as (Ho & _). unfold day_rounder.
  rewrite datetime_add_one_day by done.
  change (ordinal (replace_midnight t)) with (ordinal t).
  change (next_midnight (replace_midnight t)) with (next_midnight t).
  unfold is_noon in Htest.
  repeat case_bool_decide; simpl; try done; exfalso; lia.
Qed.


Lemma valid_time_of_day t :
  valid_datetime t → 0 ≤ time_of_day t < US_PER_DAY.
Proof.
  intros (_ & Hh & Hm & Hs & Hu). rewrite time_of_day_eq.
  unfold US_PER_DAY. lia.
Qed.

Lemma to_us_split t : to_us t = ordinal t * US_PER_DAY + time_of_day t.
Proof. rewrite time_of_day_eq. unfold to_us. lia. Qed.

Lemma to_us_own_midnight t : to_us (own_midnight t) = ordinal t * US_PER_DAY.
Proof. unfold to_us. simpl. lia. Qed.

Lemma to_us_next_midnight t :
  to_us (next_midnight t) = ordinal t * US_PER_DAY + US_PER_DAY.
Proof. unfold to_us. simpl. lia. Qed.

(** C9, as the claim states it, fails on the last representable day: after
    noon of 9999-12-31 the next midnight is no [datetime], and
    [day_rounder] raises instead of returning a boundary. *)
Lemma day_rounder_last_afternoon :
  valid_datetime last_afternoon
  ∧ day_rounder last_afternoon = Raise OverflowError
  ∧ ¬ ∃ r, day_rounder last_afternoon = Ok r.
Proof.
  split; [by vm_compute; intuition discriminate|].
  split; [by vm_compute|]. by intros [r Hr].
Qed.

(** C9, amended.  For every timestamp whose following midnight is
    representable, or which is not past noon, [day_rounder] returns the
    nearer of the two midnights around it, with hour, minute, second and
    microsecond zero, and resolves exact noon to the midnight of its own
    day.  Past noon on 9999-12-31 it raises [OverflowError]. *)
Theorem day_rounder_nearest t :
  valid_datetime t →
  (ordinal t < MAXORDINAL ∨ time_of_day t ≤ HALF_DAY →
     ∃ r, day_rounder t = Ok r
          ∧ valid_datetime r ∧ is_midnight r
          ∧ (r = own_midnight t ∨ r = next_midnight t)
          ∧ distance r t ≤ distance (own_midnight t) t
          ∧ distance r t ≤ distance (next_midnight t) t
          ∧ (is_noon t → r = own_midnight t))
  ∧ (¬ (ordinal t < MAXORDINAL ∨ time_of_day t ≤ HALF_DAY) →
       day_rounder t = Raise OverflowError).
Proof.
  intros Hv. rewrite (day_rounder_eq t Hv).
  pose proof (valid_time_of_day t Hv) as Htod.
  pose proof (proj1 (day_rounder_test t Hv)) as Hnoon.
  destruct Hv as (Ho & _).
  unfold distance. rewrite to_us_own_midnight, to_us_next_midnight, to_us_split.
  unfold US_PER_DAY, HALF_DAY, MAXORDINAL in *.
  split.
  - intros Hrep. repeat case_bool_decide; [| |exfalso; lia].
    + exists (own_midnight t). rewrite to_us_own_midnight.
      unfold valid_datetime, is_midnight, US_PER_DAY, MAXORDINAL. simpl.
      split_and!; try done; try lia. by left.
    + exists (next_midnight t). rewrite to_us_next_midnight.
      unfold valid_datetime, is_midnight, US_PER_DAY, MAXORDINAL. simpl.
      split_and!; try done; try lia; [by right|].
      intros Hn. exfalso.
      assert (time_of_day t ≤ 43200000000) by (apply Hnoon; by right). lia.
  - intros Hrep. repeat case_bool_decide; try done; exfalso; lia.
Qed.

Lemma day_rounder_nearest_witness :
  valid_datetime due_2024_03_09
  ∧ ∃ r, day_rounder due_2024_03_09 = Ok r
         ∧ valid_datetime r ∧ is_midnight r
         ∧ (r = own_midnight due_2024_03_09
            ∨ r = next_midnight due_2024_03_09)
         ∧ distance r due_2024_03_09
           ≤ distance (own_midnight due_2024_03_09) due_2024_03_09
         ∧ distance r due_2024_03_09
           ≤ distance (next_midnight due_2024_03_09) due_2024_03_09
         ∧ (is_noon due_2024_03_09 → r = own_midnight due_2024_03_09).
Proof.
  assert (valid_datetime due_2024_03_09) as Hv.
  { unfold valid_datetime, MAXORDINAL. simpl. lia. }
  split; [exact Hv|].
  apply (proj1 (day_rounder_nearest due_2024_03_09 Hv)).
  left. unfold MAXORDINAL. simpl. lia.
Defined.

(** X12.  Rounding is idempotent: what [day_rounder] returns is a midnight,
    and [day_rounder] maps it to itself. *)
Theorem day_rounder_idempotent t r :
  valid_datetime t →
  day_rounder t = Ok r →
  is_midnight r ∧ valid_datetime r ∧ day_rounder r = Ok r.
Proof.
  intros Hv. rewrite (day_rounder_eq t Hv). destruct Hv as (Ho & _).
  unfold MAXORDINAL in *.
  repeat case_bool_decide; intros [= <-].
  all: unfold is_midnight, valid_datetime, MAXORDINAL; simpl.
  all: split_and!; try done; try lia.
Qed.

Lemma day_rounder_idempotent_witness :
  day_rounder due_2024_03_09 = Ok (next_midnight due_2024_03_09)
  ∧ day_rounder (next_midnight due_2024_03_09)
    = Ok (next_midnight due_2024_03_09).
Proof.
  assert (valid_datetime due_2024_03_09) as Hv.
  { unfold valid_datetime, MAXORDINAL. simpl. lia. }
  split; [reflexivity|].
  apply (day_rounder_idempotent due_2024_03_09
           (next_midnight due_2024_03_09) Hv).
  reflexivity.
Defined.

End day_rounder.
